(** * The mixed-notation text segmenter of [app.py]

    A shallow embedding of [render_text_with_latex] (src/app.py): the
    backslash normalizer, the four delimiter scanners, the overlap
    resolution, the segment walk, the two merging passes and the emit loop
    with its per-formula failure handling.

    The Python function is written with the [re] module, so the embedding
    starts with a small backtracking matcher for the constructs its patterns
    use; every pattern is then transcribed construct by construct. *)

From Stdlib Require Import String Ascii.
From Stdlib Require Import List NArith ZArith Arith Bool Lia Permutation Sorted.
Import ListNotations.

Set Implicit Arguments.

(** ** Text

    A Python [str] is a sequence of Unicode code points. *)

Definition char := N.
Definition str := list char.

Fixpoint U (s : string) : str :=
  match s with
  | EmptyString => []
  | String a s' => N_of_ascii a :: U s'
  end.

Definition nl : char := 10%N.
Definition bslash : char := 92%N.
Definition dollar : char := 36%N.
Definition lbrack : char := 91%N.
Definition rbrack : char := 93%N.
Definition lparen : char := 40%N.
Definition rparen : char := 41%N.
Definition langle : char := 60%N.
Definition rangle : char := 62%N.
Definition slash : char := 47%N.
Definition backtick : char := 96%N.

(** [str.isspace] for one code point; [\s] of a [str] pattern tests the
    same set. *)
Definition isspace (c : char) : bool :=
  ((9 <=? c) && (c <=? 13) || (28 <=? c) && (c <=? 32)
   || (c =? 133) || (c =? 160) || (c =? 5760)
   || (8192 <=? c) && (c <=? 8202)
   || (c =? 8232) || (c =? 8233) || (c =? 8239) || (c =? 8287)
   || (c =? 12288))%N.

Fixpoint lstrip (s : str) : str :=
  match s with
  | c :: s' => if isspace c then lstrip s' else s
  | [] => []
  end.

Definition rstrip (s : str) : str := rev (lstrip (rev s)).

(** [s.strip()] *)
Definition strip (s : str) : str := rstrip (lstrip s).

(** [s[i:j]] for [0 <= i], [0 <= j] *)
Definition slice (s : str) (i j : nat) : str := firstn (j - i) (skipn i s).

(** [c in s] *)
Definition contains (c : char) (s : str) : bool := existsb (N.eqb c) s.

(** [s.split('\n')] *)
Fixpoint split_lines (s : str) : list str :=
  match s with
  | [] => [[]]
  | c :: s' =>
      if (c =? nl)%N then [] :: split_lines s'
      else match split_lines s' with
           | l :: ls => (c :: l) :: ls
           | [] => [[c]]
           end
  end.

(** ['\n'.join(ls)] *)
Fixpoint join_lines (ls : list str) : str :=
  match ls with
  | [] => []
  | [l] => l
  | l :: ls' => l ++ nl :: join_lines ls'
  end.

(** [s.replace(old, new)] for a two-character [old]: left to right, without
    rescanning what was written. *)
Fixpoint replace2 (o1 o2 : char) (new : str) (s : str) : str :=
  match s with
  | a :: s1 =>
      match s1 with
      | b :: s2 =>
          if ((a =? o1) && (b =? o2))%N
          then new ++ replace2 o1 o2 new s2
          else a :: replace2 o1 o2 new s1
      | [] => [a]
      end
  | [] => []
  end.

(** ** The pattern matcher *)

Module Re.

Record flags := { dotall : bool; ignorecase : bool }.

Definition no_flags := {| dotall := false; ignorecase := false |}.
Definition DOTALL := {| dotall := true; ignorecase := false |}.
Definition IGNORECASE := {| dotall := false; ignorecase := true |}.

(** Simple case folding as the matcher does it for the letters a pattern
    of this program can hold (ASCII): the upper-case letter, and the four
    code points Python adds (U+0130, U+0131 for i, U+017F for s, U+212A
    for k). *)
Definition fold_case (c : char) : char :=
  (if (65 <=? c) && (c <=? 90) then c + 32
   else if (c =? 304) || (c =? 305) then 105
   else if c =? 383 then 115
   else if c =? 8490 then 107
   else c)%N.

Definition char_eq (fl : flags) (p c : char) : bool :=
  if ignorecase fl then (fold_case p =? fold_case c)%N else (p =? c)%N.

(** What consumes exactly one character. *)
Inductive atom :=
| Lit (c : char)                       (* a literal, also an escaped one *)
| Dot                                  (* [.] *)
| Space                                (* [\s] *)
| Set_ (neg : bool) (cs : list char).  (* [[...]] and [[^...]] *)

Definition atom_match (fl : flags) (a : atom) (c : char) : bool :=
  match a with
  | Lit p => char_eq fl p c
  | Dot => dotall fl || negb (c =? nl)%N
  | Space => isspace c
  | Set_ neg cs => xorb neg (existsb (fun p => char_eq fl p c) cs)
  end.

Inductive regex :=
| Atom (a : atom)
| Seq (r1 r2 : regex)
| Alt (r1 r2 : regex)                        (* [r1|r2] *)
| Group (n : nat) (r : regex)                (* the n-th [( )] *)
| Repeat (many : bool) (greedy : bool) (r : regex)
    (* [many]: at least one, [+] and [+?]; otherwise [*] and [*?] *)
| Ahead (neg : bool) (r : regex)             (* [(?=r)] and [(?!r)] *)
| Behind (neg : bool) (a : atom)             (* [(?<=a)] and [(?<!a)] *)
| Eos.                                       (* [$] *)

(** The subject with a cursor in it: what was passed (latest first), what
    is ahead, and the groups closed so far. *)
Record state := {
  seen : list char;
  rest : list char;
  caps : list (nat * str)
}.

Definition pos (st : state) : nat := length (seen st).

Definition start_state (s : str) : state :=
  {| seen := []; rest := s; caps := [] |}.

Definition eat (p : char -> bool) (st : state) : list state :=
  match rest st with
  | c :: r =>
      if p c then [{| seen := c :: seen st; rest := r; caps := caps st |}]
      else []
  | [] => []
  end.

Definition close_group (n : nat) (st st' : state) : state :=
  {| seen := seen st';
     rest := rest st';
     caps := (n, firstn (length (rest st) - length (rest st')) (rest st))
               :: caps st' |}.

(** One more round of a repeated body, then the choice between stopping
    and going on, in the order the backtracking tries them.  A round that
    consumed nothing ends the repetition. *)
Fixpoint iter (greedy : bool) (body : state -> list state)
         (fuel : nat) (st : state) : list state :=
  flat_map
    (fun st' =>
       let more :=
         match fuel with
         | S f =>
             if length (rest st') <? length (rest st)
             then iter greedy body f st'
             else []
         | O => []
         end in
       if greedy then more ++ [st'] else st' :: more)
    (body st).

(** All the ways [r] matches at the cursor, in the order the backtracking
    matcher finds them: the head is the match [re] reports. *)
Fixpoint run (fl : flags) (r : regex) (st : state) : list state :=
  match r with
  | Atom a => eat (atom_match fl a) st
  | Seq r1 r2 => flat_map (run fl r2) (run fl r1 st)
  | Alt r1 r2 => run fl r1 st ++ run fl r2 st
  | Group n r1 => map (close_group n st) (run fl r1 st)
  | Repeat many greedy r1 =>
      let more := iter greedy (run fl r1) (length (rest st)) st in
      if many then more
      else if greedy then more ++ [st] else st :: more
  | Ahead neg r1 =>
      match run fl r1 st with
      | [] => if neg then [st] else []
      | st' :: _ =>
          if neg then []
          else [{| seen := seen st; rest := rest st; caps := caps st' |}]
      end
  | Behind neg a =>
      let hit := match seen st with
                 | c :: _ => atom_match fl a c
                 | [] => false
                 end in
      if xorb neg hit then [st] else []
  | Eos =>
      match rest st with
      | [] => [st]
      | [c] => if (c =? nl)%N then [st] else []
      | _ => []
      end
  end.

(** The cursor one character further, groups forgotten. *)
Definition advance (st : state) : option state :=
  match rest st with
  | c :: r => Some {| seen := c :: seen st; rest := r; caps := [] |}
  | [] => None
  end.

Definition restart (st : state) : state :=
  {| seen := seen st; rest := rest st; caps := [] |}.

(** A match object: [m.start()], [m.end()] and its groups. *)
Record rmatch := {
  m_start : nat;
  m_end : nat;
  m_groups : list (nat * str)
}.

(** [m.group(n)]; a group that did not take part is not modelled, every
    group of this program's patterns does. *)
Fixpoint group (n : nat) (gs : list (nat * str)) : str :=
  match gs with
  | (k, s) :: gs' => if k =? n then s else group n gs'
  | [] => []
  end.

Fixpoint finditer_from (fl : flags) (r : regex) (fuel : nat) (st : state)
  : list rmatch :=
  match fuel with
  | O => []
  | S f =>
      let next :=
        match advance st with
        | Some st1 => finditer_from fl r f st1
        | None => []
        end in
      match run fl r st with
      | st' :: _ =>
          {| m_start := pos st; m_end := pos st'; m_groups := caps st' |}
            :: (if length (rest st') <? length (rest st)
                then finditer_from fl r f (restart st')
                else next)
      | [] => next
      end
  end.

(** [re.finditer(r, s, fl)]: the leftmost matches, none overlapping. *)
Definition finditer (fl : flags) (r : regex) (s : str) : list rmatch :=
  finditer_from fl r (S (length s)) (start_state s).

Fixpoint sub_from (fl : flags) (r : regex) (repl : list (nat * str) -> str)
         (fuel : nat) (st : state) : str :=
  match fuel with
  | O => rest st
  | S f =>
      let next :=
        match rest st with
        | c :: _ =>
            match advance st with
            | Some st1 => c :: sub_from fl r repl f st1
            | None => []
            end
        | [] => []
        end in
      match run fl r st with
      | st' :: _ =>
          repl (caps st')
            ++ (if length (rest st') <? length (rest st)
                then sub_from fl r repl f (restart st')
                else next)
      | [] => next
      end
  end.

(** [re.sub(r, repl, s, flags=fl)], the replacement a function of the
    groups. *)
Definition sub (fl : flags) (r : regex) (repl : list (nat * str) -> str)
           (s : str) : str :=
  sub_from fl r repl (S (length s)) (start_state s).

End Re.

Import Re.

Declare Scope re_scope.
Delimit Scope re_scope with re.
Notation "a >> b" := (Seq a b) (at level 41, right associativity) : re_scope.
Notation "'lit' c" := (Atom (Lit c)) (at level 9) : re_scope.
Open Scope re_scope.

(** [w @ k]: the characters of [w], one literal each, then [k]. *)
Fixpoint word_then (w : str) (k : regex) : regex :=
  match w with
  | [] => k
  | c :: w' => lit c >> word_then w' k
  end.
Notation "w @ k" := (word_then (U w) k) (at level 41, right associativity)
  : re_scope.

Definition plus (r : regex) := Repeat true true r.
Definition plus_lazy (r : regex) := Repeat true false r.
Definition star (r : regex) := Repeat false true r.
Definition not_ahead (r : regex) := Ahead true r.
Definition not_behind (a : atom) := Behind true a.
Definition any := Atom Dot.
Definition space := Atom Space.
Definition one_of (cs : list char) := Atom (Set_ false cs).
Definition none_of (cs : list char) := Atom (Set_ true cs).

(** Python's truth value of a string: [if s:] *)
Definition truthy (s : str) : bool :=
  match s with [] => false | _ :: _ => true end.

(** ** The patterns of [render_text_with_latex] *)

(** [r'\\(\\+)([\[\(])'] *)
Definition pat_escape : regex :=
  lit bslash >> Group 1 (plus (lit bslash))
             >> Group 2 (one_of [lbrack; lparen]).

(** [r'\$\$((?:(?!\$\$).|\n)+?)\$\$'], with [re.DOTALL] *)
Definition pat_block_dollar : regex :=
  lit dollar >> lit dollar
    >> Group 1 (plus_lazy (Alt (not_ahead (lit dollar >> lit dollar) >> any)
                               (lit nl)))
    >> lit dollar >> lit dollar.

(** [r'\\\[((?:(?!\\\]).|\n)+?)\\\]'], with [re.DOTALL] *)
Definition pat_block_bracket : regex :=
  lit bslash >> lit lbrack
    >> Group 1 (plus_lazy (Alt (not_ahead (lit bslash >> lit rbrack) >> any)
                               (lit nl)))
    >> lit bslash >> lit rbrack.

(** [r'(?<!\$)\$(?![$])((?:(?!\$[^$]|$$).)+?)\$(?!\$)'] *)
Definition pat_inline_dollar : regex :=
  not_behind (Lit dollar) >> lit dollar >> not_ahead (one_of [dollar])
    >> Group 1 (plus_lazy
                  (not_ahead (Alt (lit dollar >> none_of [dollar])
                                  (Eos >> Eos))
                   >> any))
    >> lit dollar >> not_ahead (lit dollar).

(** [r'\\\(((?:(?!\\\)).)+?)\\\)'] *)
Definition pat_inline_paren : regex :=
  lit bslash >> lit lparen
    >> Group 1 (plus_lazy (not_ahead (lit bslash >> lit rparen) >> any))
    >> lit bslash >> lit rparen.

(** [r'\s+'] *)
Definition pat_spaces : regex := plus space.

(** The nine patterns of [clean_html_content], all with [re.IGNORECASE]. *)
Definition tag_open (name : string) : regex -> regex :=
  fun k => "<" @ name @ star (none_of [rangle]) >> lit rangle >> k.

(** [r'<div[^>]*>\s*</div>'] *)
Definition pat_empty_div : regex :=
  tag_open "div" (star space >> "</div" @ lit rangle).
(** [r'<div[^>]*>\s*<div[^>]*>\s*</div>\s*</div>'] *)
Definition pat_nested_div : regex :=
  tag_open "div"
    (star space >>
     tag_open "div"
       (star space >> "</div>" @ star space >> "</div" @ lit rangle)).
(** [r'<hr[^>]*>\s*'] *)
Definition pat_hr : regex := tag_open "hr" (star space).
(** [r'<hr[^>]*/>'] *)
Definition pat_hr_closed : regex :=
  "<hr" @ star (none_of [rangle]) >> lit slash >> lit rangle.
(** [r'<img[^>]*>\s*'] *)
Definition pat_img : regex := tag_open "img" (star space).
(** [r'<img[^>]*/>'] *)
Definition pat_img_closed : regex :=
  "<img" @ star (none_of [rangle]) >> lit slash >> lit rangle.
(** [r'<span[^>]*>\s*</span>'] *)
Definition pat_empty_span : regex :=
  tag_open "span" (star space >> "</span" @ lit rangle).
(** [r'<p[^>]*>\s*</p>'] *)
Definition pat_empty_p : regex :=
  tag_open "p" (star space >> "</p" @ lit rangle).
(** [r'<br[^>]*>\s*'] *)
Definition pat_br : regex := tag_open "br" (star space).

(** ** [render_text_with_latex], the pure part *)

(** The preprocessing loop over [text.split('\n')]. *)
Definition fix_escapes (line : str) : str :=
  sub no_flags pat_escape (fun gs => group 1 gs ++ group 2 gs) line.

Definition normalize (text : str) : str :=
  join_lines (map fix_escapes (split_lines text)).

(** An entry of [all_matches]: [(start, end, 'block' | 'inline', formula)]. *)
Inductive kind := block | inline.

Record span := Span {
  s_start : nat;
  s_end : nat;
  s_kind : kind;
  s_content : str
}.

(** [any(m_start <= start < m_end for ... in all_matches)] *)
Definition is_inside (all_matches : list span) (start : nat) : bool :=
  existsb (fun m => (s_start m <=? start) && (start <? s_end m)) all_matches.

Definition formula_of (m : rmatch) : str := strip (group 1 (m_groups m)).

(** Loop 1, [$$...$$]: no containment test. *)
Definition collect_block_dollar (text : str) (all_matches : list span)
  : list span :=
  fold_left
    (fun acc m =>
       let formula := formula_of m in
       if truthy formula
       then acc ++ [Span (m_start m) (m_end m) block formula]
       else acc)
    (finditer DOTALL pat_block_dollar text) all_matches.

(** Loops 2 and 4, [\[...\]] and [\(...\)]. *)
Definition collect_guarded (fl : flags) (pat : regex) (k : kind)
           (text : str) (all_matches : list span) : list span :=
  fold_left
    (fun acc m =>
       if negb (is_inside acc (m_start m)) then
         let formula := formula_of m in
         if truthy formula
         then acc ++ [Span (m_start m) (m_end m) k formula]
         else acc
       else acc)
    (finditer fl pat text) all_matches.

(** Loop 3, [$...$]: also [and '$' not in formula]. *)
Definition collect_inline_dollar (text : str) (all_matches : list span)
  : list span :=
  fold_left
    (fun acc m =>
       if negb (is_inside acc (m_start m)) then
         let formula := formula_of m in
         if truthy formula && negb (contains dollar formula)
         then acc ++ [Span (m_start m) (m_end m) inline formula]
         else acc
       else acc)
    (finditer no_flags pat_inline_dollar text) all_matches.

(** [all_matches] after the four loops, [text] already normalized. *)
Definition collect (text : str) : list span :=
  collect_guarded no_flags pat_inline_paren inline text
    (collect_inline_dollar text
       (collect_guarded DOTALL pat_block_bracket block text
          (collect_block_dollar text []))).

(** [all_matches.sort(key=lambda x: x[0])]: [list.sort] is stable, and a
    stable sort has one result; this is insertion into the sorted tail, in
    front of the first entry that does not start earlier. *)
Fixpoint insert_by_start (x : span) (l : list span) : list span :=
  match l with
  | [] => [x]
  | y :: l' =>
      if s_start x <=? s_start y then x :: l
      else y :: insert_by_start x l'
  end.

Fixpoint sort_by_start (l : list span) : list span :=
  match l with
  | [] => []
  | x :: l' => insert_by_start x (sort_by_start l')
  end.

(** [existing_start < end and start < existing_end] *)
Definition overlap (existing m : span) : bool :=
  (s_start existing <? s_end m) && (s_start m <? s_end existing).

(** The loop building [filtered_matches]. *)
Definition filter_step (filtered_matches : list span) (m : span)
  : list span :=
  if existsb (fun e => overlap e m) filtered_matches
  then filtered_matches
  else filtered_matches ++ [m].

Definition remove_overlaps (all_matches : list span) : list span :=
  fold_left filter_step all_matches [].

(** [all_matches] as the rest of the function sees it. *)
Definition resolve (text : str) : list span :=
  remove_overlaps (sort_by_start (collect text)).

(** The inner helper [has_real_content]. *)
Definition has_real_content (s : str) : bool :=
  if negb (truthy s) then false
  else
    let cleaned := sub no_flags pat_spaces (fun _ => []) s in
    0 <? length cleaned.

(** The inner helper [clean_html_content]. *)
Definition drop (pat : regex) (content : str) : str :=
  sub IGNORECASE pat (fun _ => []) content.

Definition clean_html_content (content : str) : str :=
  if negb (truthy content) then content
  else
    let content := drop pat_empty_div content in
    let content := drop pat_nested_div content in
    let content := drop pat_hr content in
    let content := drop pat_hr_closed content in
    let content := drop pat_img content in
    let content := drop pat_img_closed content in
    let content := drop pat_empty_span content in
    let content := drop pat_empty_p content in
    let content := drop pat_br content in
    content.

(** The tags of [result_parts], [text_blocks] and [merged_blocks]. *)
Inductive part_type := text | inline_latex | block_latex.

Definition part := (part_type * str)%type.

(** The walk over the resolved spans: [(result_parts, last_end)]. *)
Definition walk_step (txt : str) (acc : list part * nat) (m : span)
  : list part * nat :=
  let '(result_parts, last_end) := acc in
  let result_parts :=
    if last_end <? s_start m then
      let text_before := slice txt last_end (s_start m) in
      if has_real_content text_before
      then result_parts ++ [(text, text_before)]
      else result_parts
    else result_parts in
  let result_parts :=
    match s_kind m with
    | block =>
        if has_real_content (s_content m)
        then result_parts ++ [(block_latex, s_content m)]
        else result_parts
    | inline =>
        if has_real_content (s_content m)
        then result_parts ++ [(inline_latex, s_content m)]
        else result_parts
    end in
  (result_parts, s_end m).

Definition segments (txt : str) (all_matches : list span) : list part :=
  let '(result_parts, last_end) :=
    fold_left (walk_step txt) all_matches ([], 0) in
  if last_end <? length txt then
    let remaining_text := skipn last_end txt in
    if has_real_content remaining_text
    then result_parts ++ [(text, remaining_text)]
    else result_parts
  else result_parts.

(** The first merging loop: [(text_blocks, current_text_block)]. *)
Definition gather_step (acc : list part * str) (p : part) : list part * str :=
  let '(text_blocks, current_text_block) := acc in
  let '(part_type, content) := p in
  match part_type with
  | text =>
      if has_real_content content
      then (text_blocks, current_text_block ++ content)
      else acc
  | inline_latex =>
      if has_real_content content
      then (text_blocks, current_text_block ++ dollar :: content ++ [dollar])
      else acc
  | block_latex =>
      let '(text_blocks, current_text_block) :=
        if has_real_content current_text_block
        then (text_blocks ++ [(text, current_text_block)], [])
        else acc in
      if has_real_content content
      then (text_blocks ++ [(block_latex, content)], current_text_block)
      else (text_blocks, current_text_block)
  end.

Definition flush (acc : list part * str) : list part :=
  let '(blocks, current) := acc in
  if has_real_content current then blocks ++ [(text, current)] else blocks.

Definition gather (result_parts : list part) : list part :=
  flush (fold_left gather_step result_parts ([], [])).

(** The second merging loop: [(merged_blocks, current_merged_text)]. *)
Definition merge_step (acc : list part * str) (b : part) : list part * str :=
  let '(merged_blocks, current_merged_text) := acc in
  let '(block_type, block_content) := b in
  match block_type with
  | text =>
      if has_real_content block_content then
        if truthy current_merged_text
        then (merged_blocks, current_merged_text ++ [nl; nl] ++ block_content)
        else (merged_blocks, block_content)
      else acc
  | _ =>
      let '(merged_blocks, current_merged_text) :=
        if has_real_content current_merged_text
        then (merged_blocks ++ [(text, current_merged_text)], [])
        else acc in
      if has_real_content block_content
      then (merged_blocks ++ [(block_latex, block_content)],
            current_merged_text)
      else (merged_blocks, current_merged_text)
  end.

Definition merge (text_blocks : list part) : list part :=
  flush (fold_left merge_step text_blocks ([], [])).

(** ** The rendering surface and the emit loop

    [st.markdown] and [st.latex] are calls out of the program: each either
    returns or raises, as the surface decides from the call and from what
    it was asked before.  What a call raises is an [Exception], or a
    [BaseException] that is no [Exception] ([KeyboardInterrupt],
    [SystemExit] and the like): [except Exception] catches the first kind
    only, a bare [except] both.  A computation carries the calls made so
    far and ends with a value or with an exception on its way up. *)

Inductive call :=
| markdown (body : str)
| latex (body : str).

Definition body_of (c : call) : str :=
  match c with markdown b => b | latex b => b end.

Inductive failure := exception | base_exception.

Inductive answer := returns | raises (e : failure).

Definition surface := list call -> call -> answer.

Inductive outcome (A : Type) :=
| returned (a : A)
| raised (e : failure).

Arguments returned {A} a.
Arguments raised {A} e.

Definition io (A : Type) := list call -> list call * outcome A.

Definition ret {A : Type} (a : A) : io A := fun tr => (tr, returned a).

Definition bind {A B : Type} (m : io A) (k : A -> io B) : io B :=
  fun tr =>
    match m tr with
    | (tr', returned a) => k a tr'
    | (tr', raised e) => (tr', raised e)
    end.

(** [try: m except: handler] *)
Definition try_except {A : Type} (m handler : io A) : io A :=
  fun tr =>
    match m tr with
    | (tr', raised _) => handler tr'
    | done => done
    end.

(** [try: m except Exception: handler] *)
Definition try_except_Exception {A : Type} (m handler : io A) : io A :=
  fun tr =>
    match m tr with
    | (tr', raised exception) => handler tr'
    | done => done
    end.

Notation "m ;; k" := (bind m (fun _ => k))
  (at level 61, right associativity).

Section Emit.

Variable st : surface.

Definition invoke (c : call) : io unit :=
  fun tr => (tr ++ [c],
             match st tr c with
             | returns => returned tt
             | raises e => raised e
             end).

Definition when (b : bool) (m : io unit) : io unit :=
  if b then m else ret tt.

(** The body of the last loop for a ['text'] entry, and the early-return
    branch for a text without formulas. *)
Definition emit_text (content : str) : io unit :=
  when (has_real_content content)
    (let cleaned := clean_html_content (strip content) in
     when (truthy cleaned && has_real_content cleaned)
       (invoke (markdown cleaned))).

(** [block_content.replace('\\\\', '\\').strip()] *)
Definition collapse (block_content : str) : str :=
  strip (replace2 bslash bslash [bslash] block_content).

(** The body of the last loop for any other entry: the outer handler is
    [except Exception as e], the inner one a bare [except]. *)
Definition emit_formula (block_content : str) : io unit :=
  when (has_real_content block_content)
    (try_except_Exception (invoke (latex block_content))
       (let cleaned_formula := collapse block_content in
        when (has_real_content cleaned_formula)
          (try_except (invoke (latex cleaned_formula))
             (invoke (markdown (backtick :: cleaned_formula
                                  ++ [backtick])))))).

Definition emit_block (b : part) : io unit :=
  match fst b with
  | text => emit_text (snd b)
  | _ => emit_formula (snd b)
  end.

Fixpoint emit (merged_blocks : list part) : io unit :=
  match merged_blocks with
  | [] => ret tt
  | b :: bs => emit_block b ;; emit bs
  end.

(** The blocks the last loop runs over. *)
Definition merged_blocks_of (txt : str) : list part :=
  merge (gather (segments txt (resolve txt))).

Definition render_text_with_latex (input : str) : io unit :=
  if negb (truthy input) then ret tt
  else
    let txt := normalize input in
    let all_matches := resolve txt in
    match all_matches with
    | [] => emit_text txt
    | _ :: _ => emit (merged_blocks_of txt)
    end.

End Emit.

(** A surface that renders whatever it is given. *)
Definition accepting : surface := fun _ _ => returns.

(** A surface whose math primitive rejects everything, with an
    [Exception]. *)
Definition no_math : surface :=
  fun _ c =>
    match c with latex _ => raises exception | markdown _ => returns end.

(** A surface whose math primitive is interrupted: every [st.latex] raises
    a [BaseException] that is no [Exception]. *)
Definition interrupted : surface :=
  fun _ c =>
    match c with latex _ => raises base_exception | markdown _ => returns end.

Definition run_on (st : surface) (input : str) : list call * outcome unit :=
  render_text_with_latex st input [].

(** ** Definitions used to state the properties *)

(** The cursor [k] characters further. *)
Definition eaten (k : nat) (st : state) : state :=
  {| seen := rev (firstn k (rest st)) ++ seen st;
     rest := skipn k (rest st);
     caps := caps st |}.
Arguments eaten : simpl never.

(** The length of the longest prefix whose characters all pass [p]. *)
Fixpoint run_length (p : char -> bool) (s : str) : nat :=
  match s with
  | c :: s' => if p c then S (run_length p s') else 0
  | [] => 0
  end.

Definition visible (c : char) : bool := negb (isspace c).

(** The spec's predicate: strip every whitespace character, true iff
    something is left. *)
Definition hasContent (s : str) : bool :=
  0 <? length (filter visible s).

(** Two spans share no offset, as half-open intervals. *)
Definition disjoint (a b : span) : Prop :=
  forall x, ~ (s_start a <= x < s_end a /\ s_start b <= x < s_end b).

Definition by_start (a b : span) : Prop := s_start a <= s_start b.

Definition starts_at (k : nat) (m : span) : bool := s_start m =? k.

(** [l1] is [l2] with some entries left out, the order kept. *)
Inductive subseq {A : Type} : list A -> list A -> Prop :=
| subseq_nil : subseq [] []
| subseq_skip x l1 l2 : subseq l1 l2 -> subseq l1 (x :: l2)
| subseq_take x l1 l2 : subseq l1 l2 -> subseq (x :: l1) (x :: l2).

(** A list of blocks in which every ['text'] entry is the last one or has
    a ['block_latex'] entry right after it, and nothing has another tag. *)
Fixpoint texts_separated (bs : list part) : bool :=
  match bs with
  | [] => true
  | (text, _) :: tl =>
      match tl with
      | [] => true
      | (block_latex, _) :: _ => texts_separated tl
      | _ => false
      end
  | (block_latex, _) :: tl => texts_separated tl
  | (inline_latex, _) :: _ => false
  end.

(** Whether the second merging loop, in state [acc] at entry [b], takes the
    branch [current_merged_text += "\n\n" + block_content]. *)
Definition takes_join (acc : list part * str) (b : part) : bool :=
  match fst b with
  | text => has_real_content (snd b) && truthy (snd acc)
  | _ => false
  end.

Fixpoint join_count (bs : list part) (acc : list part * str) : nat :=
  match bs with
  | [] => 0
  | b :: bs' =>
      (if takes_join acc b then 1 else 0) + join_count bs' (merge_step acc b)
  end.

(** What the first merging loop has appended so far: formulas, each with
    at most one text entry in front of it. *)
Inductive closed : list part -> Prop :=
| closed_nil : closed []
| closed_block bs d :
    closed bs -> has_real_content d = true ->
    closed (bs ++ [(block_latex, d)])
| closed_text_block bs c d :
    closed bs -> has_real_content c = true -> has_real_content d = true ->
    closed (bs ++ [(text, c); (block_latex, d)]).

(** The render blocks of an input: the calls the function makes on a
    surface that renders everything, a [markdown] call for a text block and
    a [latex] call for a math block. *)
Definition render_blocks (input : str) : list call :=
  fst (run_on accepting input).

(** The blocks written back as one string: text payloads as they are, a
    formula between two pairs of dollars. *)
Definition reserialize (blocks : list call) : str :=
  flat_map (fun c => match c with
                     | markdown b => b
                     | latex b => U "$$" ++ b ++ U "$$"
                     end) blocks.

(** The inputs of the spec's examples. *)
Definition example_mixed : str :=
  U "Solve $x+1=2$ then" ++ [nl; nl]
    ++ U "$$\int_0^1 x\,dx = \frac{1}{2}$$" ++ [nl; nl] ++ U "Done.".
Definition example_blank_block : str := U "$$   $$".
Definition example_nested : str := U "\( $x$ \)".
Definition example_doubled : str := U "\\[ a=b \\]".

(** Inputs on which the spec and the function part. *)
Definition example_double_backslash : str := U "$$a\\b$$".

(** A call whose body has content, by the function's test and by the
    spec's. *)
Definition substantial (c : call) : Prop :=
  has_real_content (body_of c) = true /\ hasContent (body_of c) = true.

(** A computation keeps a property of the calls made. *)
Definition keeps (P : call -> Prop) (m : io unit) : Prop :=
  forall tr, Forall P tr -> Forall P (fst (m tr)).

(** The fallback of the emit loop for a formula: the collapsed text between
    backticks. *)
Definition literal (formula : str) : call :=
  markdown (backtick :: collapse formula ++ [backtick]).

(** A code point no other one folds to, and that folds to itself: every
    one below [A]. *)
Definition caseless (c : char) : bool := (c <? 65)%N.

(** Every match of [r] passes a character [c]: a sufficient test on the
    shape of the pattern. *)
Fixpoint needs (fl : flags) (c : char) (r : regex) : bool :=
  match r with
  | Atom (Lit p) => (p =? c)%N && (negb (ignorecase fl) || caseless c)
  | Atom _ => false
  | Seq r1 r2 => needs fl c r1 || needs fl c r2
  | Alt r1 r2 => needs fl c r1 && needs fl c r2
  | Group _ r1 => needs fl c r1
  | Repeat many _ r1 => many && needs fl c r1
  | Ahead _ _ | Behind _ _ | Eos => false
  end.

(** [[] and [(], the characters the spec's rule looks for after a run. *)
Definition opens (c : char) : bool := ((c =? lbrack) || (c =? lparen))%N.

(** The spec's rule for one line, read left to right with the number [n]
    of backslashes just passed: a run of two or more backslashes directly
    followed by [[] or [(] is written with one backslash less, everything
    else is written as it is. *)
Fixpoint reduce_runs (n : nat) (s : str) : str :=
  match s with
  | [] => repeat bslash n
  | c :: s' =>
      if (c =? bslash)%N then reduce_runs (S n) s'
      else if opens c && (2 <=? n)
           then repeat bslash (n - 1) ++ c :: reduce_runs 0 s'
           else repeat bslash n ++ c :: reduce_runs 0 s'
  end.

Definition spec_fix_escapes (line : str) : str := reduce_runs 0 line.

Definition spec_normalize (txt : str) : str :=
  join_lines (map spec_fix_escapes (split_lines txt)).

Definition is_bslash (c : char) : bool := (c =? bslash)%N.

(** The class [[\[\(]] of [pat_escape]. *)
Definition bracket_atom : atom := Set_ false [lbrack; lparen].

(** ** The page script and further definitions *)

(** The inner helper [has_real_content_check] of the page script, for an
    argument that is a [str] ([isinstance(s, str)] holds, [str(s)] is
    [s]). *)
Definition has_real_content_check (s : str) : bool :=
  if negb (truthy s) then false
  else
    let cleaned := sub no_flags pat_spaces (fun _ => []) (strip s) in
    0 <? length cleaned.

(** The loop over [related_knowledge] that builds [valid_knowledge]. *)
Definition valid_knowledge (related_knowledge : list str) : list str :=
  fold_left
    (fun acc knowledge =>
       if truthy knowledge && has_real_content_check knowledge
       then acc ++ [knowledge] else acc)
    related_knowledge [].

Definition not_bslash (c : char) : bool := negb (is_bslash c).

(** A list of parts read back as one text: text as it is, an inline
    formula between dollars, a block formula as [fblock] writes it. *)
Definition flat (fblock : str -> str) (ps : list part) : str :=
  flat_map (fun p => match fst p with
                     | text => snd p
                     | inline_latex => dollar :: snd p ++ [dollar]
                     | block_latex => fblock (snd p)
                     end) ps.

Definition is_block_part (p : part) : bool :=
  match fst p with block_latex => true | _ => false end.

Definition is_block_span (m : span) : bool :=
  match s_kind m with block => true | inline => false end.

(** The bodies of the [st.latex] calls of a trace, in order. *)
Definition latex_bodies (tr : list call) : list str :=
  flat_map (fun c => match c with latex b => [b] | markdown _ => [] end) tr.

Definition is_markdown (c : call) : bool :=
  match c with markdown _ => true | latex _ => false end.

(** A surface whose markup primitive rejects everything, with an
    [Exception]. *)
Definition no_markup : surface :=
  fun _ c =>
    match c with markdown _ => raises exception | latex _ => returns end.

(** The failure [e] is what the last call of the trace raised, and that
    call was an [st.markdown] call, or [e] is no [Exception]. *)
Definition escaped (st : surface) (tr : list call) (e : failure) : Prop :=
  exists tr0 c,
    tr = tr0 ++ [c]
    /\ st tr0 c = raises e
    /\ (is_markdown c = true \/ e = base_exception).

(** A computation ends with an exception only that way. *)
Definition fails_by_escape (st : surface) (m : io unit) : Prop :=
  forall tr tr' e, m tr = (tr', raised e) -> escaped st tr' e.

(** The least number of characters a match of [r] passes. *)
Fixpoint min_width (r : regex) : nat :=
  match r with
  | Atom _ => 1
  | Seq r1 r2 => min_width r1 + min_width r2
  | Alt r1 r2 => Nat.min (min_width r1) (min_width r2)
  | Group _ r1 => min_width r1
  | Repeat many _ r1 => if many then min_width r1 else 0
  | Ahead _ _ | Behind _ _ | Eos => 0
  end.

(** Every character [r] can pass has the property [P]. *)
Fixpoint only (fl : flags) (P : char -> Prop) (r : regex) : Prop :=
  match r with
  | Atom a => forall c, atom_match fl a c = true -> P c
  | Seq r1 r2 | Alt r1 r2 => only fl P r1 /\ only fl P r2
  | Group _ r1 | Repeat _ _ r1 => only fl P r1
  | Ahead neg r1 => if neg then True else only fl P r1
  | Behind _ _ | Eos => True
  end.

(** [r] closes no group. *)
Fixpoint group_free (r : regex) : bool :=
  match r with
  | Atom _ | Behind _ _ | Eos => true
  | Seq r1 r2 | Alt r1 r2 => group_free r1 && group_free r2
  | Group _ _ => false
  | Repeat _ _ r1 => group_free r1
  | Ahead neg r1 => neg || group_free r1
  end.

(** The characters a pattern passes when it is made of literals and of
    assertions, which pass none. *)
Fixpoint word_of (r : regex) : option str :=
  match r with
  | Atom (Lit c) => Some [c]
  | Seq r1 r2 =>
      match word_of r1, word_of r2 with
      | Some w1, Some w2 => Some (w1 ++ w2)
      | _, _ => None
      end
  | Ahead true _ | Behind _ _ | Eos => Some []
  | _ => None
  end.

(** From [st] the cursor came to [st'] over characters that have [P], at
    least [k] of them, closing groups over such characters only. *)
Definition reach (P : char -> Prop) (k : nat) (st st' : state) : Prop :=
  exists w,
    rest st = w ++ rest st'
    /\ seen st' = rev w ++ seen st
    /\ Forall P w
    /\ k <= length w
    /\ forall n g, In (n, g) (caps st') -> In (n, g) (caps st) \/ Forall P g.

(** A pattern that is the opening [wO], group 1 around [B], and the
    closing [wC]. *)
Inductive framed : str -> regex -> str -> regex -> Prop :=
| framed_body B C wC :
    group_free B = true -> word_of C = Some wC ->
    framed [] B wC (Seq (Group 1 B) C)
| framed_open a r wa wO B wC :
    word_of a = Some wa ->
    framed wO B wC r ->
    framed (wa ++ wO) B wC (Seq a r).

(** What a match [m] of a framed pattern in [s] satisfies: it lies in [s],
    it starts with the opening and ends with the closing, and group 1 is
    what [s] holds between the two. *)
Definition framed_match (P : char -> Prop) (wO wC : str) (k : nat) (s : str)
           (m : rmatch) : Prop :=
  let g := group 1 (m_groups m) in
  m_start m + length wO + length g + length wC = m_end m
  /\ m_end m <= length s
  /\ slice s (m_start m) (m_start m + length wO) = wO
  /\ slice s (m_end m - length wC) (m_end m) = wC
  /\ g = slice s (m_start m + length wO) (m_end m - length wC)
  /\ Forall P g
  /\ k <= length g.

(** The delimiters of each kind of formula: [$$ $$] and [\[ \]] around a
    block formula, [$ $] and [\( \)] around an inline one. *)
Definition delimiters (k : kind) : list (str * str) :=
  match k with
  | block => [(U "$$", U "$$"); (U "\[", U "\]")]
  | inline => [(U "$", U "$"); (U "\(", U "\)")]
  end.

(** What holds of a span [sp] found in [txt]: it lies in the text, it
    starts with an opening delimiter of its kind and ends with the closing
    one that goes with it, its content is the stripped text between the
    two, that content has a visible character, and an inline formula holds
    no line break. *)
Definition span_in (txt : str) (sp : span) : Prop :=
  exists o c,
    In (o, c) (delimiters (s_kind sp))
    /\ s_start sp + length o + length c < s_end sp
    /\ s_end sp <= length txt
    /\ slice txt (s_start sp) (s_start sp + length o) = o
    /\ slice txt (s_end sp - length c) (s_end sp) = c
    /\ s_content sp
       = strip (slice txt (s_start sp + length o) (s_end sp - length c))
    /\ has_real_content (s_content sp) = true
    /\ (s_kind sp = inline -> contains nl (s_content sp) = false).

Definition not_nl (c : char) : Prop := c <> nl.

(** ** [MathProblemSolver.search_related_knowledge] (src/models/query.py)

    The renderer's knowledge items come from this method.  The embedding
    service and the FAISS index are outside the repository: the embedding
    of a text, the index's dimension, size and search are parameters; an
    embedding is a row of values of some type with a zero. *)

(** [keyword in problem_text] *)
Fixpoint starts_with (w s : str) : bool :=
  match w with
  | [] => true
  | c :: w' =>
      match s with
      | x :: s' => (c =? x)%N && starts_with w' s'
      | [] => false
      end
  end.

Fixpoint occurs (w s : str) : bool :=
  starts_with w s
  || match s with
     | [] => false
     | _ :: s' => occurs w s'
     end.

(** The string literals of [get_fallback_knowledge], lines 109 to 130, by
    code point. *)
Definition general_knowledge : list str :=
  [[25968; 23398; 39064; 30446; 35299; 31572; 38656; 35201; 27880; 24847; 23457; 39064; 65292; 29702; 35299; 39064; 30446; 35201; 27714]%N;
   [35299; 39064; 36807; 31243; 20013; 35201; 27880; 24847; 20844; 24335; 30340; 25512; 23548; 21644; 35745; 31639; 27493; 39588]%N;
   [25968; 23398; 38382; 39064; 36890; 24120; 28041; 21450; 22522; 26412; 27010; 24565; 12289; 23450; 29702; 21644; 20844; 24335; 30340; 24212; 29992]%N].
Definition calculus_keywords : list str :=
  [[24494; 31215; 20998]%N;
   [23548; 25968]%N;
   [31215; 20998]%N].
Definition calculus_knowledge : list str :=
  [[24494; 31215; 20998; 22522; 26412; 23450; 29702; 65306; 23548; 25968; 21644; 31215; 20998; 26159; 20114; 36870; 36816; 31639]%N;
   [24120; 35265; 20989; 25968; 30340; 23548; 25968; 20844; 24335; 38656; 35201; 29087; 35760]%N;
   [31215; 20998; 35745; 31639; 35201; 27880; 24847; 31215; 20998; 19978; 19979; 38480; 21644; 31215; 20998; 21464; 37327]%N].
Definition algebra_keywords : list str :=
  [[32447; 24615; 20195; 25968]%N;
   [30697; 38453]%N;
   [21521; 37327]%N].
Definition algebra_knowledge : list str :=
  [[30697; 38453; 36816; 31639; 35201; 31526; 21512; 32500; 24230; 35268; 21017]%N;
   [21521; 37327; 31354; 38388; 30340; 22522; 26412; 24615; 36136; 38656; 35201; 25484; 25569]%N;
   [32447; 24615; 26041; 31243; 32452; 30340; 35299; 27861; 26377; 22810; 31181; 65292; 22914; 39640; 26031; 28040; 20803; 27861]%N].
Definition probability_keywords : list str :=
  [[27010; 29575]%N;
   [32479; 35745]%N].
Definition probability_knowledge : list str :=
  [[27010; 29575; 35745; 31639; 35201; 27880; 24847; 20107; 20214; 30340; 29420; 31435; 24615; 21644; 20114; 26021; 24615]%N;
   [24120; 35265; 27010; 29575; 20998; 24067; 30340; 29305; 28857; 21644; 24212; 29992; 22330; 26223]%N;
   [32479; 35745; 25512; 26029; 22522; 20110; 26679; 26412; 23545; 24635; 20307; 36827; 34892; 20272; 35745]%N].

(** [any(keyword in problem_text for keyword in keywords)] *)
Definition any_occurs (keywords : list str) (problem_text : str) : bool :=
  existsb (fun keyword => occurs keyword problem_text) keywords.

Definition get_fallback_knowledge (problem_text : str) : list str :=
  let fallback_knowledge := general_knowledge in
  if any_occurs calculus_keywords problem_text
  then fallback_knowledge ++ calculus_knowledge
  else if any_occurs algebra_keywords problem_text
  then fallback_knowledge ++ algebra_knowledge
  else if any_occurs probability_keywords problem_text
  then fallback_knowledge ++ probability_knowledge
  else fallback_knowledge.

(** Python's truth value of a list: [if not related_knowledge:] *)
Definition truthy_list {A : Type} (l : list A) : bool :=
  match l with [] => false | _ :: _ => true end.

(** The one item returned when [self.index is None]. *)
Definition index_missing : str :=
  U "Vector index not loaded successfully, unable to retrieve related knowledge".

Section Search.

Variable F : Type.
Variable zero : F.

(** [self.index]: [index.d], [index.ntotal], and the rows of indices that
    the search of the index returns for a query and a number of neighbours,
    [None] when it raises. *)
Record faiss_index := {
  dim : nat;
  ntotal : nat;
  search : list F -> Z -> option (list (list Z))
}.

(** [index.search(x, k)] as the FAISS module wraps it: the number of
    neighbours asked for has to be positive ([assert k > 0]), or the call
    raises before the index is searched. *)
Definition index_search (ix : faiss_index) (x : list F) (k : Z)
  : option (list (list Z)) :=
  if (0 <? k)%Z then search ix x k else None.

(** [self.get_embedding(text)], a call to the embedding service: the row
    it returns, [None] when it raises. *)
Variable get_embedding : str -> option (list F).

Variable index : option faiss_index.
Variable knowledge_data : list str.

(** The adjustment of the query row to the index's dimension: cut when
    longer, padded into a row of zeros when shorter. *)
Definition fit_query (d : nat) (query_embedding : list F) : list F :=
  if negb (length query_embedding =? d) then
    if d <? length query_embedding then firstn d query_embedding
    else if length query_embedding <? d
         then query_embedding ++ repeat zero (d - length query_embedding)
         else query_embedding
  else query_embedding.

(** The body of the inner loop; [None] is the [IndexError] of
    [self.knowledge_data[idx]]. *)
Definition take_hit (related_knowledge : list str) (idx : Z)
  : option (list str) :=
  if negb (idx =? -1)%Z
     && ((0 <=? idx)%Z && (idx <? Z.of_nat (length knowledge_data))%Z)
  then match nth_error knowledge_data (Z.to_nat idx) with
       | Some k => Some (related_knowledge ++ [k])
       | None => None
       end
  else Some related_knowledge.

Fixpoint take_hits (related_knowledge : list str) (idx_array : list Z)
  : option (list str) :=
  match idx_array with
  | [] => Some related_knowledge
  | idx :: rest_of_row =>
      match take_hit related_knowledge idx with
      | Some related => take_hits related rest_of_row
      | None => None
      end
  end.

Fixpoint take_rows (related_knowledge : list str) (indices : list (list Z))
  : option (list str) :=
  match indices with
  | [] => Some related_knowledge
  | idx_array :: rows =>
      match take_hits related_knowledge idx_array with
      | Some related => take_rows related rows
      | None => None
      end
  end.

(** [None] is an exception on its way out of the method: what
    [get_embedding] or [index.search] raised. *)
Definition search_related_knowledge (problem_text : str) (top_k : Z)
  : option (list str) :=
  match index with
  | None => Some [index_missing]
  | Some ix =>
      match get_embedding problem_text with
      | None => None
      | Some query_embedding =>
          let query_embedding := fit_query (dim ix) query_embedding in
          let actual_top_k := Z.min top_k (Z.of_nat (ntotal ix)) in
          match index_search ix query_embedding actual_top_k with
          | None => None
          | Some indices =>
              match take_rows [] indices with
              | Some related_knowledge =>
                  if negb (truthy_list related_knowledge)
                  then Some (get_fallback_knowledge problem_text)
                  else Some related_knowledge
              | None => None
              end
          end
      end
  end.

End Search.

(** The first span ends where the second starts, or before. *)
Definition before (a b : span) : Prop := s_end a <= s_start b.

(** The second span does not start inside the first. *)
Definition starts_outside (a b : span) : Prop :=
  is_inside [a] (s_start b) = false.

(** ** Definitions for rendering a second time *)






















(** ** The matcher: repetition of one atom *)

Lemma eat_hit (p : char -> bool) (st : state) (c : char) (r : str) :
  rest st = c :: r -> p c = true -> eat p st = [eaten 1 st].
Proof.
  intros Hr Hp. unfold eat, eaten. rewrite Hr, Hp. reflexivity.
Qed.

Lemma eaten_eaten (j k : nat) (st : state) :
  eaten j (eaten k st) = eaten (k + j) st.
Proof.
  unfold eaten; simpl. f_equal.
  - rewrite app_assoc. f_equal.
    rewrite <- rev_app_distr. f_equal.
    rewrite Nat.add_comm.
    revert j. generalize (rest st) as l.
    induction k as [|k IH]; intros l j.
    + rewrite Nat.add_0_r. reflexivity.
    + destruct l as [|c l].
      * simpl. rewrite !firstn_nil. reflexivity.
      * replace (j + S k) with (S (j + k)) by lia. simpl.
        f_equal. apply IH.
  - rewrite skipn_skipn. f_equal. lia.
Qed.

Lemma iter_S (greedy : bool) (body : state -> list state) (f : nat)
      (st : state) :
  iter greedy body (S f) st
  = flat_map
      (fun st' =>
         let more := if length (rest st') <? length (rest st)
                     then iter greedy body f st' else [] in
         if greedy then more ++ [st'] else st' :: more)
      (body st).
Proof. reflexivity. Qed.

Lemma iter_0 (greedy : bool) (body : state -> list state) (st : state) :
  iter greedy body 0 st
  = flat_map (fun st' => if greedy then [st'] else [st']) (body st).
Proof. destruct greedy; reflexivity. Qed.

Lemma rest_eaten (k : nat) (st : state) : rest (eaten k st) = skipn k (rest st).
Proof. reflexivity. Qed.

Lemma rest_restart (st : state) : rest (restart st) = rest st.
Proof. reflexivity. Qed.

Lemma eaten_shorter (k : nat) (st : state) (c : char) (r : str) :
  rest st = c :: r ->
  (length (rest (eaten (S k) st)) <? length (rest st)) = true.
Proof.
  intros Hr. apply Nat.ltb_lt. rewrite rest_eaten, Hr. simpl.
  rewrite length_skipn. lia.
Qed.

Lemma rev_seq_S (a n : nat) : rev (seq a (S n)) = (a + n) :: rev (seq a n).
Proof. rewrite seq_S, rev_app_distr. reflexivity. Qed.

(** The greedy repetition of an atom offers the longest run first, then
    each shorter one, down to a single character. *)
Lemma iter_greedy_atom (p : char -> bool) :
  forall fuel st,
    run_length p (rest st) <= S fuel ->
    iter true (eat p) fuel st
    = map (fun k => eaten k st) (rev (seq 1 (run_length p (rest st)))).
Proof.
  induction fuel as [|f IH]; intros st Hn.
  - rewrite iter_0. destruct (rest st) as [|c r] eqn:Hr.
    + unfold eat. rewrite Hr. reflexivity.
    + simpl in Hn |- *. destruct (p c) eqn:Hp.
      * rewrite (eat_hit p st Hr Hp).
        assert (run_length p r = 0) as -> by lia. reflexivity.
      * unfold eat. rewrite Hr, Hp. reflexivity.
  - rewrite iter_S. destruct (rest st) as [|c r] eqn:Hr.
    + unfold eat. rewrite Hr. reflexivity.
    + simpl in Hn. simpl run_length. destruct (p c) eqn:Hp.
      * rewrite (eat_hit p st Hr Hp). cbn [flat_map].
        rewrite <- Hr, (eaten_shorter 0 st Hr), app_nil_r.
        assert (Hr1 : rest (eaten 1 st) = r) by (rewrite rest_eaten, Hr; reflexivity).
        rewrite IH by (rewrite Hr1; lia).
        rewrite Hr1.
        change (seq 1 (S (run_length p r)))
          with (1 :: seq 2 (run_length p r)).
        cbn [rev]. rewrite map_app. cbn [map]. f_equal.
        rewrite <- (seq_shift (run_length p r) 1), <- map_rev, map_map.
        apply map_ext. intros k. rewrite eaten_eaten. reflexivity.
      * unfold eat. rewrite Hr, Hp. reflexivity.
Qed.

Lemma run_length_le (p : char -> bool) (s : str) :
  run_length p s <= length s.
Proof.
  induction s as [|c s IH]; simpl; [lia|]. destruct (p c); lia.
Qed.

Lemma run_plus_atom (fl : flags) (a : atom) (st : state) :
  run fl (plus (Atom a)) st
  = map (fun k => eaten k st)
        (rev (seq 1 (run_length (atom_match fl a) (rest st)))).
Proof.
  unfold plus. simpl. apply iter_greedy_atom.
  pose proof (run_length_le (atom_match fl a) (rest st)). lia.
Qed.

(** ** [has_real_content] is the spec's [hasContent] *)

Lemma filter_skip_run (p : char -> bool) (s : str) :
  filter (fun c => negb (p c)) (skipn (run_length p s) s)
  = filter (fun c => negb (p c)) s.
Proof.
  induction s as [|c s IH]; simpl; [reflexivity|].
  destruct (p c) eqn:Hp; simpl; [exact IH | rewrite Hp; reflexivity].
Qed.

Lemma sub_from_S (fl : flags) (r : regex) (repl : list (nat * str) -> str)
      (f : nat) (st : state) :
  sub_from fl r repl (S f) st
  = let next := match rest st with
                | c :: _ => match advance st with
                            | Some st1 => c :: sub_from fl r repl f st1
                            | None => []
                            end
                | [] => []
                end in
    match run fl r st with
    | st' :: _ =>
        repl (caps st')
          ++ (if length (rest st') <? length (rest st)
              then sub_from fl r repl f (restart st') else next)
    | [] => next
    end.
Proof. reflexivity. Qed.

Lemma sub_spaces_from :
  forall fuel st,
    length (rest st) < fuel ->
    sub_from no_flags pat_spaces (fun _ => []) fuel st
    = filter visible (rest st).
Proof.
  induction fuel as [|f IH]; intros st Hf; [lia|].
  rewrite sub_from_S. cbv zeta.
  change (run no_flags pat_spaces st) with (run no_flags (plus space) st).
  unfold space. rewrite run_plus_atom.
  change (atom_match no_flags Space) with isspace.
  destruct (rest st) as [|c r] eqn:Hr.
  - reflexivity.
  - cbn [run_length filter]. unfold visible at 1.
    destruct (isspace c) eqn:Hc; cbn [negb].
    + rewrite rev_seq_S. cbn [map].
      rewrite <- Hr, (eaten_shorter _ st Hr). cbn [app].
      rewrite IH; rewrite rest_restart, rest_eaten, Hr; cbn [Nat.add skipn].
      * apply (filter_skip_run isspace r).
      * rewrite length_skipn. simpl in Hf. lia.
    + unfold advance. rewrite Hr. f_equal.
      rewrite IH by (simpl in *; lia). reflexivity.
Qed.

Lemma sub_spaces (s : str) :
  sub no_flags pat_spaces (fun _ => []) s = filter visible s.
Proof.
  unfold sub. apply sub_spaces_from. simpl. lia.
Qed.

Lemma has_real_content_spec (s : str) : has_real_content s = hasContent s.
Proof.
  unfold has_real_content, hasContent.
  destruct s as [|c s]; [reflexivity|].
  simpl truthy. simpl negb. cbv iota. rewrite sub_spaces. reflexivity.
Qed.

Lemma hasContent_exists (s : str) : hasContent s = existsb visible s.
Proof.
  unfold hasContent. induction s as [|c s IH]; [reflexivity|].
  simpl. destruct (visible c); [reflexivity | exact IH].
Qed.

Lemma has_real_content_exists (s : str) :
  has_real_content s = existsb visible s.
Proof. rewrite has_real_content_spec. apply hasContent_exists. Qed.

(** ** Sorting and overlap removal *)

Section Resolve.

Lemma subseq_Forall {A : Type} (P : A -> Prop) (l1 l2 : list A) :
  subseq l1 l2 -> Forall P l2 -> Forall P l1.
Proof.
  induction 1 as [|x l1 l2 _ IH|x l1 l2 _ IH]; intros HF.
  - constructor.
  - inversion HF; auto.
  - inversion HF; subst. constructor; auto.
Qed.

Lemma subseq_sorted {A : Type} (R : A -> A -> Prop) (l1 l2 : list A) :
  subseq l1 l2 -> StronglySorted R l2 -> StronglySorted R l1.
Proof.
  induction 1 as [|x l1 l2 H IH|x l1 l2 H IH]; intros HS.
  - constructor.
  - inversion HS; auto.
  - inversion HS; subst. constructor; [auto|].
    eapply subseq_Forall; eassumption.
Qed.

Lemma pairs_snoc {A : Type} (R : A -> A -> Prop) (l : list A) (x : A) :
  ForallOrdPairs R l -> Forall (fun e => R e x) l ->
  ForallOrdPairs R (l ++ [x]).
Proof.
  induction 1 as [|a l Ha Hl IH]; intros HF; simpl.
  - repeat constructor.
  - inversion HF; subst. constructor; [|auto].
    apply Forall_app. split; [assumption | repeat constructor; assumption].
Qed.

(** *** The sort *)

Lemma insert_perm (x : span) (l : list span) :
  Permutation (insert_by_start x l) (x :: l).
Proof.
  induction l as [|y l IH]; simpl; [reflexivity|].
  destruct (s_start x <=? s_start y); [reflexivity|].
  rewrite IH. apply perm_swap.
Qed.

Lemma sort_perm (l : list span) : Permutation (sort_by_start l) l.
Proof.
  induction l as [|x l IH]; simpl; [reflexivity|].
  rewrite insert_perm. constructor. exact IH.
Qed.

Lemma insert_sorted (x : span) (l : list span) :
  StronglySorted by_start l -> StronglySorted by_start (insert_by_start x l).
Proof.
  induction 1 as [|y l Hl IH Hy]; simpl.
  - repeat constructor.
  - destruct (s_start x <=? s_start y) eqn:E.
    + apply Nat.leb_le in E. constructor; [constructor; assumption|].
      constructor; [exact E|].
      eapply Forall_impl; [|exact Hy]. unfold by_start. intros; lia.
    + apply Nat.leb_gt in E. constructor; [exact IH|].
      eapply Permutation_Forall; [symmetry; apply insert_perm|].
      constructor; [unfold by_start; lia | exact Hy].
Qed.

Lemma sort_sorted (l : list span) : StronglySorted by_start (sort_by_start l).
Proof.
  induction l as [|x l IH]; simpl; [constructor | apply insert_sorted, IH].
Qed.

Lemma insert_stable (k : nat) (x : span) (l : list span) :
  filter (starts_at k) (insert_by_start x l) = filter (starts_at k) (x :: l).
Proof.
  induction l as [|y l IH]; [reflexivity|].
  cbn [insert_by_start]. destruct (s_start x <=? s_start y) eqn:E.
  - reflexivity.
  - apply Nat.leb_gt in E. cbn [filter] in *. rewrite IH.
    unfold starts_at.
    destruct (s_start x =? k) eqn:Ex; [|reflexivity].
    apply Nat.eqb_eq in Ex.
    assert ((s_start y =? k) = false) as -> by (apply Nat.eqb_neq; lia).
    reflexivity.
Qed.

(** Entries with one start keep the order they were collected in. *)
Lemma sort_stable (k : nat) (l : list span) :
  filter (starts_at k) (sort_by_start l) = filter (starts_at k) l.
Proof.
  induction l as [|x l IH]; [reflexivity|].
  cbn [sort_by_start]. rewrite insert_stable. cbn [filter].
  rewrite IH. reflexivity.
Qed.

(** *** The greedy pass *)

Lemma overlap_false_disjoint (e m : span) :
  overlap e m = false -> disjoint e m.
Proof.
  unfold overlap, disjoint. intros H x [[Ha Hb] [Hc Hd]].
  apply andb_false_iff in H. destruct H as [H|H]; apply Nat.ltb_ge in H; lia.
Qed.

Lemma remove_overlaps_snoc (l : list span) (m : span) :
  remove_overlaps (l ++ [m]) = filter_step (remove_overlaps l) m.
Proof. unfold remove_overlaps. rewrite fold_left_app. reflexivity. Qed.

Lemma filter_fold (l : list span) :
  forall acc,
    ForallOrdPairs disjoint acc ->
    ForallOrdPairs disjoint (fold_left filter_step l acc)
    /\ exists kept, fold_left filter_step l acc = acc ++ kept
                    /\ subseq kept l.
Proof.
  induction l as [|m l IH]; intros acc Hacc.
  - split; [exact Hacc|]. exists []. rewrite app_nil_r.
    split; [reflexivity | constructor].
  - cbn [fold_left]. unfold filter_step at 2 4.
    destruct (existsb (fun e => overlap e m) acc) eqn:E.
    + destruct (IH acc Hacc) as (H1 & kept & H2 & H3).
      split; [exact H1|]. exists kept. split; [exact H2|].
      constructor; exact H3.
    + assert (Hnew : ForallOrdPairs disjoint (acc ++ [m])).
      { apply pairs_snoc; [exact Hacc|].
        apply Forall_forall. intros e He.
        apply overlap_false_disjoint.
        destruct (overlap e m) eqn:Eo; [|reflexivity].
        assert (existsb (fun e => overlap e m) acc = true)
          by (apply existsb_exists; eauto).
        congruence. }
      destruct (IH (acc ++ [m]) Hnew) as (H1 & kept & H2 & H3).
      split; [exact H1|]. exists (m :: kept).
      split; [rewrite H2, <- app_assoc; reflexivity|].
      constructor; exact H3.
Qed.

Lemma remove_overlaps_subseq (l : list span) : subseq (remove_overlaps l) l.
Proof.
  destruct (filter_fold l (acc := [])) as (_ & kept & H2 & H3);
    [constructor|].
  unfold remove_overlaps. rewrite H2. exact H3.
Qed.

Lemma remove_overlaps_disjoint (l : list span) :
  ForallOrdPairs disjoint (remove_overlaps l).
Proof. apply (filter_fold l (acc := [])). constructor. Qed.

End Resolve.

(** C2.  For every input, what the overlap removal keeps is pairwise
    disjoint (half-open intervals) and ascending by start; it is the sorted
    candidate list with entries left out, and that list is the collected
    candidates rearranged by start with entries of equal start left in the
    order the four scans collected them. *)
Theorem accepted_spans_disjoint_and_sorted (input : str) :
  let candidates := collect (normalize input) in
  let accepted := resolve (normalize input) in
  ForallOrdPairs disjoint accepted
  /\ StronglySorted by_start accepted
  /\ subseq accepted (sort_by_start candidates)
  /\ StronglySorted by_start (sort_by_start candidates)
  /\ Permutation (sort_by_start candidates) candidates
  /\ forall k, filter (starts_at k) (sort_by_start candidates)
               = filter (starts_at k) candidates.
Proof.
  intros candidates accepted. unfold accepted, resolve. fold candidates.
  split; [apply remove_overlaps_disjoint|].
  split; [eapply subseq_sorted;
          [apply remove_overlaps_subseq | apply sort_sorted]|].
  split; [apply remove_overlaps_subseq|].
  split; [apply sort_sorted|].
  split; [apply sort_perm|].
  intros k. apply sort_stable.
Qed.

(** ** The two merging loops *)

Section Merging.

Lemma has_real_content_nil : has_real_content [] = false.
Proof. reflexivity. Qed.

Lemma has_real_content_truthy (s : str) :
  has_real_content s = true -> truthy s = true.
Proof. destruct s; [discriminate | reflexivity]. Qed.

(** Every entry of [result_parts] has content. *)
Lemma walk_has_content (txt : str) (ms : list span) :
  forall acc,
    Forall (fun p => has_real_content (snd p) = true) (fst acc) ->
    Forall (fun p => has_real_content (snd p) = true)
           (fst (fold_left (walk_step txt) ms acc)).
Proof.
  induction ms as [|m ms IH]; intros [ps last_end] H; [exact H|].
  cbn [fold_left]. apply IH. unfold walk_step. cbn [fst] in *.
  set (ps1 := if last_end <? s_start m then _ else _).
  assert (H1 : Forall (fun p => has_real_content (snd p) = true) ps1).
  { unfold ps1. destruct (last_end <? s_start m); [|exact H].
    destruct (has_real_content (slice txt last_end (s_start m))) eqn:E;
      [|exact H].
    apply Forall_app. split; [exact H | repeat constructor; exact E]. }
  clearbody ps1.
  destruct (s_kind m), (has_real_content (s_content m)) eqn:E; cbn [fst];
    try exact H1;
    (apply Forall_app; split; [exact H1 | repeat constructor; exact E]).
Qed.

Lemma segments_have_content (txt : str) (ms : list span) :
  Forall (fun p => has_real_content (snd p) = true) (segments txt ms).
Proof.
  unfold segments.
  destruct (fold_left (walk_step txt) ms ([], 0)) as [ps last_end] eqn:E0.
  assert (H : Forall (fun p => has_real_content (snd p) = true)
                     (fst (ps, last_end))).
  { rewrite <- E0. apply walk_has_content. constructor. }
  cbn [fst] in H.
  destruct (last_end <? length txt); [|exact H].
  destruct (has_real_content (skipn last_end txt)) eqn:E; [|exact H].
  apply Forall_app. split; [exact H | repeat constructor; exact E].
Qed.

(** The first loop keeps its list [closed]. *)
Lemma gather_fold_closed (ps : list part) :
  Forall (fun p => has_real_content (snd p) = true) ps ->
  forall bs cur,
    closed bs ->
    closed (fst (fold_left gather_step ps (bs, cur))).
Proof.
  induction 1 as [|[tag c] ps Hc _ IH]; intros bs cur Hbs; [exact Hbs|].
  cbn [fold_left snd] in *. unfold gather_step at 2.
  rewrite Hc. destruct tag.
  - apply IH, Hbs.
  - apply IH, Hbs.
  - destruct (has_real_content cur) eqn:Ecur; apply IH.
    + rewrite <- app_assoc. apply closed_text_block; assumption.
    + apply closed_block; assumption.
Qed.

(** [text_blocks] is a closed list, with at most one text entry after. *)
Lemma gather_shape (ps : list part) :
  Forall (fun p => has_real_content (snd p) = true) ps ->
  exists bs,
    closed bs
    /\ (gather ps = bs
        \/ exists c, has_real_content c = true
                     /\ gather ps = bs ++ [(text, c)]).
Proof.
  intros H. unfold gather.
  destruct (fold_left gather_step ps ([], [])) as [bs cur] eqn:E0.
  assert (Hc : closed (fst (bs, cur))).
  { rewrite <- E0. apply gather_fold_closed; [exact H | constructor]. }
  cbn [fst] in Hc. exists bs. split; [exact Hc|].
  unfold flush. destruct (has_real_content cur) eqn:E; [right | left].
  - exists cur. split; [exact E | reflexivity].
  - reflexivity.
Qed.

Lemma separated_snoc_block (bs : list part) (d : str) :
  texts_separated bs = true ->
  texts_separated (bs ++ [(block_latex, d)]) = true.
Proof.
  induction bs as [|[tag c] bs IH]; intros H; [reflexivity|].
  destruct tag; cbn [app texts_separated] in *.
  - destruct bs as [|[tag' c'] bs]; [reflexivity|].
    destruct tag'; try discriminate. cbn [app]. apply IH, H.
  - discriminate.
  - apply IH, H.
Qed.

Lemma separated_text_after_block (bs : list part) (d c : str) :
  texts_separated (bs ++ [(block_latex, d)]) = true ->
  texts_separated (bs ++ [(block_latex, d); (text, c)]) = true.
Proof.
  induction bs as [|[tag e] bs IH]; intros H; [reflexivity|].
  destruct tag; cbn [app texts_separated] in *.
  - destruct bs as [|[tag' c'] bs]; [reflexivity|].
    destruct tag'; try discriminate. cbn [app] in *. apply IH, H.
  - discriminate.
  - apply IH, H.
Qed.

Lemma closed_separated (bs : list part) :
  closed bs ->
  texts_separated bs = true
  /\ forall c, texts_separated (bs ++ [(text, c)]) = true.
Proof.
  induction 1 as [|bs d _ [IH1 IH2] Hd|bs c d _ [IH1 IH2] Hc Hd].
  - split; reflexivity.
  - pose proof (separated_snoc_block bs d IH1) as H.
    split; [exact H|]. intros c. rewrite <- app_assoc.
    apply separated_text_after_block, H.
  - assert (H : texts_separated (bs ++ [(text, c); (block_latex, d)]) = true).
    { change [(text, c); (block_latex, d)]
        with ([(text, c)] ++ [(block_latex, d)]).
      rewrite app_assoc. apply separated_snoc_block, IH2. }
    split; [exact H|]. intros c'.
    change [(text, c); (block_latex, d)]
      with ([(text, c)] ++ [(block_latex, d)]) in *.
    rewrite app_assoc in *. rewrite <- app_assoc.
    apply separated_text_after_block, H.
Qed.

Lemma join_count_app (l1 l2 : list part) :
  forall acc,
    join_count (l1 ++ l2) acc
    = join_count l1 acc + join_count l2 (fold_left merge_step l1 acc).
Proof.
  induction l1 as [|b l1 IH]; intros acc; [reflexivity|].
  cbn [app join_count fold_left]. rewrite IH. lia.
Qed.

(** On a closed list the second loop copies, with its buffer empty at
    every text entry. *)
Lemma merge_fold_closed (bs : list part) :
  closed bs ->
  fold_left merge_step bs ([], []) = (bs, [])
  /\ join_count bs ([], []) = 0.
Proof.
  induction 1 as [|bs d _ [IH1 IH2] Hd|bs c d _ [IH1 IH2] Hc Hd].
  - split; reflexivity.
  - rewrite fold_left_app, join_count_app, IH1, IH2.
    cbn [fold_left join_count takes_join fst snd merge_step].
    rewrite has_real_content_nil, Hd. split; reflexivity.
  - rewrite fold_left_app, join_count_app, IH1, IH2.
    cbn [fold_left join_count takes_join fst snd merge_step truthy].
    rewrite Hc. cbn [andb merge_step]. rewrite Hc, Hd, <- app_assoc.
    split; reflexivity.
Qed.

End Merging.

(** C10.  For every input, in the list the first merging loop builds every
    text entry is the last entry or stands right in front of a block
    formula, so no two text entries are neighbours; the second loop never
    takes its joining branch on it and returns it as it is. *)
Theorem second_merge_is_identity (input : str) :
  let txt := normalize input in
  let text_blocks := gather (segments txt (resolve txt)) in
  texts_separated text_blocks = true
  /\ join_count text_blocks ([], []) = 0
  /\ merge text_blocks = text_blocks.
Proof.
  intros txt text_blocks.
  destruct (gather_shape (segments_have_content txt (resolve txt)))
    as (bs & Hbs & [E | (c & Hc & E)]);
    fold text_blocks in E; rewrite E;
    destruct (closed_separated Hbs) as [S1 S2];
    destruct (merge_fold_closed Hbs) as [M1 M2].
  - split; [exact S1|]. split; [exact M2|].
    unfold merge. rewrite M1. reflexivity.
  - split; [apply S2|]. split.
    + rewrite join_count_app, M1, M2.
      cbn [join_count takes_join fst snd truthy]. rewrite andb_false_r.
      reflexivity.
    + unfold merge. rewrite fold_left_app, M1.
      cbn [fold_left merge_step truthy]. rewrite Hc.
      unfold flush. rewrite Hc. reflexivity.
Qed.

(** ** The emit loop *)

Section EmitFacts.

Variable st : surface.
Variable P : call -> Prop.

Lemma keeps_ret : keeps P (ret tt).
Proof. intros tr H. exact H. Qed.

Lemma keeps_invoke (c : call) : P c -> keeps P (invoke st c).
Proof.
  intros Hc tr H. unfold invoke. cbn [fst].
  apply Forall_app. split; [exact H | repeat constructor; exact Hc].
Qed.

Lemma keeps_bind (m k : io unit) :
  keeps P m -> keeps P k -> keeps P (m ;; k).
Proof.
  intros Hm Hk tr H. unfold bind. specialize (Hm tr H).
  destruct (m tr) as [tr' [[]|e]]; cbn [fst] in *; [apply Hk|]; exact Hm.
Qed.

Lemma keeps_try (m h : io unit) :
  keeps P m -> keeps P h -> keeps P (try_except m h).
Proof.
  intros Hm Hh tr H. unfold try_except. specialize (Hm tr H).
  destruct (m tr) as [tr' [[]|e]]; cbn [fst] in *; [|apply Hh]; exact Hm.
Qed.

Lemma keeps_try_Exception (m h : io unit) :
  keeps P m -> keeps P h -> keeps P (try_except_Exception m h).
Proof.
  intros Hm Hh tr H. unfold try_except_Exception. specialize (Hm tr H).
  destruct (m tr) as [tr' [[]|[|]]]; cbn [fst] in *;
    [| apply Hh |]; exact Hm.
Qed.

Lemma keeps_when (b : bool) (m : io unit) :
  (b = true -> keeps P m) -> keeps P (when b m).
Proof.
  intros Hm. unfold when. destruct b; [apply Hm; reflexivity|].
  apply keeps_ret.
Qed.

End EmitFacts.

Lemma substantial_of (c : call) :
  has_real_content (body_of c) = true -> substantial c.
Proof.
  intros H. split; [exact H | rewrite <- has_real_content_spec; exact H].
Qed.

Lemma literal_substantial (formula : str) : substantial (literal formula).
Proof.
  apply substantial_of. unfold literal. cbn [body_of].
  rewrite has_real_content_exists. reflexivity.
Qed.

Lemma emit_text_keeps (st : surface) (content : str) :
  keeps substantial (emit_text st content).
Proof.
  unfold emit_text. apply keeps_when. intros _.
  apply keeps_when. intros H. apply andb_prop in H. destruct H as [_ H].
  apply keeps_invoke, substantial_of, H.
Qed.

Lemma emit_formula_keeps (st : surface) (block_content : str) :
  keeps substantial (emit_formula st block_content).
Proof.
  unfold emit_formula. apply keeps_when. intros H.
  apply keeps_try_Exception; [apply keeps_invoke, substantial_of, H|].
  apply keeps_when. intros H'.
  apply keeps_try; [apply keeps_invoke, substantial_of, H'|].
  apply keeps_invoke, literal_substantial.
Qed.

Lemma emit_keeps (st : surface) (blocks : list part) :
  keeps substantial (emit st blocks).
Proof.
  induction blocks as [|[tag c] blocks IH]; cbn [emit].
  - apply keeps_ret.
  - apply keeps_bind; [|exact IH].
    unfold emit_block. cbn [fst snd].
    destruct tag; [apply emit_text_keeps | | ]; apply emit_formula_keeps.
Qed.

(** C1.  Whatever the input and however the surface answers, every call
    made, [st.markdown] or [st.latex], carries a body that has content: it
    passes [has_real_content], and so is not empty once every whitespace
    character is removed. *)
Theorem every_call_has_content (st : surface) (input : str) :
  Forall (fun c => has_real_content (body_of c) = true
                   /\ hasContent (body_of c) = true)
         (fst (run_on st input)).
Proof.
  unfold run_on, render_text_with_latex.
  destruct (negb (truthy input)); [constructor|].
  destruct (resolve (normalize input)).
  - apply (@emit_text_keeps st _ []). constructor.
  - apply (@emit_keeps st _ []). constructor.
Qed.

(** ** A formula the surface rejects *)

Lemma existsb_rev {A : Type} (f : A -> bool) (l : list A) :
  existsb f (rev l) = existsb f l.
Proof.
  induction l as [|a l IH]; [reflexivity|].
  cbn [rev existsb]. rewrite existsb_app, IH. cbn [existsb].
  rewrite orb_false_r. apply orb_comm.
Qed.

Lemma lstrip_visible (s : str) :
  existsb visible (lstrip s) = existsb visible s.
Proof.
  induction s as [|c s IH]; [reflexivity|].
  cbn [lstrip]. destruct (isspace c) eqn:E; [|reflexivity].
  cbn [existsb]. unfold visible at 2. rewrite E. exact IH.
Qed.

Lemma strip_visible (s : str) :
  existsb visible (strip s) = existsb visible s.
Proof.
  unfold strip, rstrip.
  rewrite existsb_rev, lstrip_visible, existsb_rev. apply lstrip_visible.
Qed.

Lemma replace2_cons2 (o1 o2 : char) (new : str) (a b : char) (s2 : str) :
  replace2 o1 o2 new (a :: b :: s2)
  = if ((a =? o1) && (b =? o2))%N
    then new ++ replace2 o1 o2 new s2
    else a :: replace2 o1 o2 new (b :: s2).
Proof. reflexivity. Qed.

Lemma replace2_visible_le (n : nat) :
  forall s, length s <= n ->
    existsb visible (replace2 bslash bslash [bslash] s) = existsb visible s.
Proof.
  induction n as [|n IH]; intros s Hn.
  - destruct s; [reflexivity | simpl in Hn; lia].
  - destruct s as [|a [|b s2]]; [reflexivity | reflexivity |].
    rewrite replace2_cons2.
    destruct ((a =? bslash) && (b =? bslash))%N eqn:E.
    + apply andb_prop in E. destruct E as [Ea Eb].
      apply N.eqb_eq in Ea, Eb. subst a b.
      cbn [app existsb]. rewrite IH by (simpl in Hn; lia). reflexivity.
    + cbn [existsb]. f_equal. rewrite IH by (simpl in *; lia). reflexivity.
Qed.

Lemma collapse_keeps_content (b : str) :
  has_real_content b = true -> has_real_content (collapse b) = true.
Proof.
  rewrite !has_real_content_exists. unfold collapse.
  rewrite strip_visible, (@replace2_visible_le (length b)); auto.
Qed.

Lemma emit_formula_rejected (st : surface) (b : str) (tr : list call) :
  has_real_content b = true ->
  st tr (latex b) = raises exception ->
  emit_formula st b tr
  = let tr1 := tr ++ [latex b; latex (collapse b)] in
    match st (tr ++ [latex b]) (latex (collapse b)) with
    | returns => (tr1, returned tt)
    | raises _ =>
        (tr1 ++ [literal b],
         match st tr1 (literal b) with
         | returns => returned tt
         | raises e => raised e
         end)
    end.
Proof.
  intros Hb Hrej. unfold emit_formula, when. rewrite Hb.
  unfold try_except_Exception. unfold invoke at 1. rewrite Hrej.
  rewrite (collapse_keeps_content b Hb).
  unfold try_except, invoke. cbv zeta.
  replace ((tr ++ [latex b]) ++ [latex (collapse b)])
    with (tr ++ [latex b; latex (collapse b)])
    by (rewrite <- app_assoc; reflexivity).
  destruct (st (tr ++ [latex b]) (latex (collapse b))); reflexivity.
Qed.

Lemma emit_formula_interrupted (st : surface) (b : str) (tr : list call) :
  has_real_content b = true ->
  st tr (latex b) = raises base_exception ->
  emit_formula st b tr = (tr ++ [latex b], raised base_exception).
Proof.
  intros Hb Hrej. unfold emit_formula, when. rewrite Hb.
  unfold try_except_Exception, invoke. rewrite Hrej. reflexivity.
Qed.

(** C4, as the function has it.  When the first [st.latex] of a formula
    raises an [Exception], the function asks once more, with every double
    backslash made a single one and the ends stripped; when that raises
    too, whatever it raises, it renders this same collapsed text, not the
    original, between backticks through [st.markdown].  Such a failure goes
    no further: the loop goes on with the blocks that follow, and ends
    early only if [st.markdown] itself raises.  When the first [st.latex]
    raises a [BaseException] that is no [Exception], nothing is retried:
    [except Exception] lets it through and the loop ends there. *)
Theorem rejected_formula_retried_once
        (st : surface) (b : str) (later : list part) (tr : list call)
        (e : failure) :
  has_real_content b = true ->
  st tr (latex b) = raises e ->
  let retry := latex (collapse b) in
  let tr1 := tr ++ [latex b; retry] in
  emit st ((block_latex, b) :: later) tr
  = match e with
    | exception =>
        match st (tr ++ [latex b]) retry with
        | returns => emit st later tr1
        | raises _ =>
            match st tr1 (literal b) with
            | returns => emit st later (tr1 ++ [literal b])
            | raises e' => (tr1 ++ [literal b], raised e')
            end
        end
    | base_exception => (tr ++ [latex b], raised base_exception)
    end.
Proof.
  intros Hb Hrej retry tr1. cbn [emit]. unfold bind, emit_block.
  cbn [fst snd]. destruct e.
  - rewrite (emit_formula_rejected st b tr Hb Hrej).
    cbv zeta. fold retry. fold tr1.
    destruct (st (tr ++ [latex b]) retry); [reflexivity|].
    destruct (st tr1 (literal b)); reflexivity.
  - rewrite (emit_formula_interrupted st b tr Hb Hrej). reflexivity.
Qed.

Lemma rejected_formula_retried_once_witness :
  emit no_math [(block_latex, example_double_backslash); (text, U "after")] []
  = ([latex example_double_backslash;
      latex (collapse example_double_backslash);
      literal example_double_backslash;
      markdown (U "after")], returned tt).
Proof.
  rewrite (@rejected_formula_retried_once no_math example_double_backslash
             [(text, U "after")] [] exception);
    [| vm_compute; reflexivity | reflexivity].
  vm_compute. reflexivity.
Defined.

(** C4 as the spec has it fails twice.  On [$$a\\b$$] with a surface whose
    math primitive rejects everything, the text rendered between backticks
    is [a\b], and the original [a\\b] is rendered by no [st.markdown] call.
    On [$$a$$ after] with a surface whose math primitive is interrupted,
    the failure of the first [st.latex] is propagated: nothing is retried
    and the text that follows is not rendered. *)
Lemma fallback_is_not_the_original :
  run_on no_math example_double_backslash
  = ([latex (U "a\\b"); latex (U "a\b"); markdown (U "`a\b`")], returned tt)
  /\ ~ In (markdown (backtick :: U "a\\b" ++ [backtick]))
          (fst (run_on no_math example_double_backslash))
  /\ run_on interrupted (U "$$a$$ after")
     = ([latex (U "a")], raised base_exception).
Proof.
  assert (E : run_on no_math example_double_backslash
              = ([latex (U "a\\b"); latex (U "a\b"); markdown (U "`a\b`")],
                 returned tt)) by (vm_compute; reflexivity).
  split; [exact E|]. split; [|vm_compute; reflexivity].
  rewrite E. cbn [fst].
  intros [H|[H|[H|[]]]]; discriminate H.
Qed.

(** ** The spec's examples *)

(** C3.  On the mixed example the function makes three calls in this
    order: [st.markdown] with [Solve $x+1=2$ then], [st.latex] with the
    integral, [st.markdown] with [Done.]; the blocks it loops over are a
    text, a block formula and a text. *)
Theorem mixed_example_three_blocks :
  run_on accepting example_mixed
  = ([markdown (U "Solve $x+1=2$ then");
      latex (U "\int_0^1 x\,dx = \frac{1}{2}");
      markdown (U "Done.")], returned tt)
  /\ map fst (merged_blocks_of (normalize example_mixed))
     = [text; block_latex; text].
Proof. split; vm_compute; reflexivity. Qed.

(** C5 as the spec has it fails: on [$$   $$] one call is made. *)
Lemma blank_block_is_rendered :
  fst (run_on accepting example_blank_block) <> [].
Proof. vm_compute. discriminate. Qed.

(** C5, as the function has it.  On [$$   $$] the dollar-block scan finds
    the pair, its stripped content is empty and the candidate is dropped,
    so no span is left and no [st.latex] call is made; the input itself
    has content (its dollars), so the branch for a text without formulas
    renders it whole: one [st.markdown] call with [$$   $$]. *)
Theorem blank_block_falls_through :
  map (fun m => (m_start m, m_end m, formula_of m))
      (finditer DOTALL pat_block_dollar (normalize example_blank_block))
  = [(0, 7, [])]
  /\ collect (normalize example_blank_block) = []
  /\ forall st, fst (run_on st example_blank_block)
                = [markdown (U "$$   $$")].
Proof.
  split; [vm_compute; reflexivity|].
  split; [vm_compute; reflexivity|].
  intros st. vm_compute. reflexivity.
Qed.

(** C6 as the spec has it fails: on [\( $x$ \)] no [st.latex] call is made,
    with [x] or with anything else. *)
Lemma nested_example_no_math_block :
  run_on accepting example_nested <> ([latex (U "x")], returned tt)
  /\ forall b, ~ In (latex b) (fst (run_on accepting example_nested)).
Proof.
  split; [vm_compute; discriminate|].
  intros b. vm_compute. intros [H|[]]. discriminate H.
Qed.

(** C6, as the function has it.  On [\( $x$ \)] both the dollar span and
    the backslash-paren span are collected; sorted by start the paren span
    comes first and is accepted, the dollar span inside it overlaps and is
    discarded.  The accepted span is an inline formula with content [$x$]:
    it goes into the text buffer between dollars, and the one call made is
    [st.markdown] with [$$x$$]. *)
Theorem nested_example_one_text_block :
  collect (normalize example_nested)
  = [Span 3 6 inline (U "x"); Span 0 9 inline (U "$x$")]
  /\ resolve (normalize example_nested) = [Span 0 9 inline (U "$x$")]
  /\ forall st, fst (run_on st example_nested) = [markdown (U "$$x$$")].
Proof.
  split; [vm_compute; reflexivity|].
  split; [vm_compute; reflexivity|].
  intros st. vm_compute. destruct (st _ _); reflexivity.
Qed.

(** C7's example as the spec has it fails: the formula rendered for
    [\\[ a=b \\]] is not [a=b]. *)
Lemma doubled_example_keeps_a_backslash :
  run_on accepting example_doubled <> ([latex (U "a=b")], returned tt).
Proof. vm_compute. discriminate. Qed.


(** ** The matcher: a character the subject does not hold *)

Lemma flat_map_nil {A B : Type} (f : A -> list B) (l : list A) :
  (forall x, In x l -> f x = []) -> flat_map f l = [].
Proof.
  induction l as [|a l IH]; intros H; [reflexivity|].
  cbn [flat_map]. rewrite (H a) by (left; reflexivity).
  apply IH. intros x Hx. apply H. right. exact Hx.
Qed.

(** A body that only moves the cursor forward is repeated that way. *)
Lemma iter_forward (greedy : bool) (body : state -> list state) :
  (forall st st', In st' (body st) -> exists w, rest st = w ++ rest st') ->
  forall fuel st st',
    In st' (iter greedy body fuel st) -> exists w, rest st = w ++ rest st'.
Proof.
  intros Hbody. induction fuel as [|f IH]; intros st st' H.
  - rewrite iter_0 in H. apply in_flat_map in H.
    destruct H as (st1 & H1 & H2).
    assert (st' = st1) as ->
        by (destruct greedy; destruct H2 as [H2|[]]; symmetry; exact H2).
    apply Hbody, H1.
  - rewrite iter_S in H. apply in_flat_map in H.
    destruct H as (st1 & H1 & H2). cbv zeta in H2.
    destruct (Hbody _ _ H1) as [w1 Hw1].
    assert (Hcases : st' = st1
                     \/ In st' (if length (rest st1) <? length (rest st)
                                then iter greedy body f st1 else [])).
    { destruct greedy.
      - apply in_app_or in H2. destruct H2 as [H2|[H2|[]]]; auto.
      - destruct H2 as [H2|H2]; auto. }
    destruct Hcases as [->|H3]; [exists w1; exact Hw1|].
    destruct (length (rest st1) <? length (rest st)); [|destruct H3].
    destruct (IH _ _ H3) as [w2 Hw2].
    exists (w1 ++ w2). rewrite <- app_assoc, <- Hw2. exact Hw1.
Qed.

(** A match ends at or after the cursor it started from. *)
Lemma run_forward (fl : flags) (r : regex) :
  forall st st', In st' (run fl r st) -> exists w, rest st = w ++ rest st'.
Proof.
  induction r as [a|r1 IH1 r2 IH2|r1 IH1 r2 IH2|n r1 IH1|many greedy r1 IH1
                  |neg r1 IH1|neg a|]; intros st st' H; cbn [run] in H.
  - unfold eat in H. destruct (rest st) as [|c t] eqn:E; [destruct H|].
    destruct (atom_match fl a c); [|destruct H].
    destruct H as [<-|[]]. exists [c]. reflexivity.
  - apply in_flat_map in H. destruct H as (st1 & H1 & H2).
    destruct (IH1 _ _ H1) as [w1 Hw1]. destruct (IH2 _ _ H2) as [w2 Hw2].
    exists (w1 ++ w2). rewrite <- app_assoc, <- Hw2. exact Hw1.
  - apply in_app_or in H. destruct H as [H|H]; eauto.
  - apply in_map_iff in H. destruct H as (st1 & <- & H1).
    cbn [close_group rest]. eauto.
  - assert (Hit : forall x, In x (iter greedy (run fl r1) (length (rest st)) st)
                           -> exists w, rest st = w ++ rest x)
      by (intros x; apply iter_forward; exact IH1).
    destruct many; [auto|].
    destruct greedy.
    + apply in_app_or in H. destruct H as [H|[<-|[]]]; [auto|].
      exists []. reflexivity.
    + destruct H as [<-|H]; [exists []; reflexivity | auto].
  - destruct (run fl r1 st) as [|st1 l], neg;
      try destruct H as [<-|[]]; try destruct H; exists []; reflexivity.
  - destruct (xorb neg _); [|destruct H].
    destruct H as [<-|[]]. exists []. reflexivity.
  - assert (st' = st) as ->.
    { destruct (rest st) as [|c [|c' t]].
      - destruct H as [<-|[]]. reflexivity.
      - destruct (c =? nl)%N; [|destruct H].
        destruct H as [<-|[]]. reflexivity.
      - destruct H. }
    exists []. reflexivity.
Qed.

(** *** The fuel is enough

    [iter], [finditer_from] and [sub_from] recurse on a counter that starts
    at the length of what is ahead (plus one); with any larger counter they
    give the same result. *)

Lemma flat_map_ext_in {A B : Type} (f g : A -> list B) (l : list A) :
  (forall x, In x l -> f x = g x) -> flat_map f l = flat_map g l.
Proof.
  induction l as [|a l IH]; intros H; [reflexivity|].
  cbn [flat_map]. rewrite (H a) by (left; reflexivity).
  rewrite IH; [reflexivity|]. intros x Hx. apply H. right. exact Hx.
Qed.

Lemma iter_fuel (greedy : bool) (body : state -> list state) :
  forall f1 f2 st,
    length (rest st) <= f1 -> length (rest st) <= f2 ->
    iter greedy body f1 st = iter greedy body f2 st.
Proof.
  induction f1 as [|f1 IH]; intros f2 st H1 H2.
  - destruct f2 as [|f2]; [reflexivity|].
    rewrite iter_0, iter_S. apply flat_map_ext_in. intros st' _. cbv zeta.
    assert ((length (rest st') <? length (rest st)) = false) as ->
        by (apply Nat.ltb_ge; lia).
    destruct greedy; reflexivity.
  - destruct f2 as [|f2].
    + rewrite iter_0, iter_S. apply flat_map_ext_in. intros st' _. cbv zeta.
      assert ((length (rest st') <? length (rest st)) = false) as ->
          by (apply Nat.ltb_ge; lia).
      destruct greedy; reflexivity.
    + rewrite !iter_S. apply flat_map_ext_in. intros st' _. cbv zeta.
      destruct (length (rest st') <? length (rest st)) eqn:E; [|reflexivity].
      apply Nat.ltb_lt in E. rewrite (IH f2 st') by lia. reflexivity.
Qed.


Lemma sub_from_fuel (fl : flags) (r : regex)
      (repl : list (nat * str) -> str) :
  forall f1 f2 st,
    length (rest st) < f1 -> length (rest st) < f2 ->
    sub_from fl r repl f1 st = sub_from fl r repl f2 st.
Proof.
  induction f1 as [|f1 IH]; intros f2 st H1 H2; [lia|].
  destruct f2 as [|f2]; [lia|]. rewrite !sub_from_S. cbv zeta.
  assert (Hnext : match rest st with
                  | c :: _ => match advance st with
                              | Some st1 => c :: sub_from fl r repl f1 st1
                              | None => []
                              end
                  | [] => []
                  end
                  = match rest st with
                    | c :: _ => match advance st with
                                | Some st1 => c :: sub_from fl r repl f2 st1
                                | None => []
                                end
                    | [] => []
                    end).
  { unfold advance. destruct (rest st) as [|c t] eqn:E; [reflexivity|].
    f_equal. apply IH; cbn [rest]; simpl in H1, H2; lia. }
  rewrite Hnext. destruct (run fl r st) as [|st' l]; [reflexivity|].
  f_equal. destruct (length (rest st') <? length (rest st)) eqn:E;
    [|reflexivity].
  apply Nat.ltb_lt in E. apply IH; rewrite rest_restart; lia.
Qed.

Lemma contains_app (c : char) (a b : str) :
  contains c (a ++ b) = contains c a || contains c b.
Proof. apply existsb_app. Qed.

Lemma contains_suffix (c : char) (w s : str) :
  contains c (w ++ s) = false -> contains c s = false.
Proof.
  rewrite contains_app. intros H. apply orb_false_elim in H. apply H.
Qed.

Lemma lit_only (fl : flags) (p c x : char) :
  ((p =? c)%N && (negb (ignorecase fl) || caseless c)) = true ->
  char_eq fl p x = true -> x = c.
Proof.
  intros H Hx. apply andb_prop in H. destruct H as [Hp Hc].
  apply N.eqb_eq in Hp. subst p. unfold char_eq in Hx.
  destruct (ignorecase fl); [|apply N.eqb_eq in Hx; auto].
  cbn [negb orb] in Hc. unfold caseless in Hc. apply N.ltb_lt in Hc.
  apply N.eqb_eq in Hx. unfold fold_case in Hx.
  assert (((65 <=? c) && (c <=? 90))%N = false) as E1
      by (apply andb_false_iff; left; apply N.leb_gt; lia).
  assert (((c =? 304) || (c =? 305))%N = false) as E2
      by (apply orb_false_intro; apply N.eqb_neq; lia).
  assert ((c =? 383)%N = false) as E3 by (apply N.eqb_neq; lia).
  assert ((c =? 8490)%N = false) as E4 by (apply N.eqb_neq; lia).
  rewrite E1, E2, E3, E4 in Hx.
  destruct ((65 <=? x) && (x <=? 90))%N eqn:F1.
  { apply andb_prop in F1. destruct F1 as [F1 _]. apply N.leb_le in F1. lia. }
  destruct ((x =? 304) || (x =? 305))%N; [lia|].
  destruct (x =? 383)%N; [lia|].
  destruct (x =? 8490)%N; [lia|]. auto.
Qed.

(** A pattern that needs [c] matches nowhere in a subject without [c]. *)
Lemma run_needs (fl : flags) (c : char) (r : regex) :
  needs fl c r = true ->
  forall st, contains c (rest st) = false -> run fl r st = [].
Proof.
  induction r as [a|r1 IH1 r2 IH2|r1 IH1 r2 IH2|n r1 IH1|many greedy r1 IH1
                  |neg r1 IH1|neg a|]; intros Hn st Hc; cbn [needs] in Hn;
    try discriminate Hn; cbn [run].
  - destruct a as [p| | |]; try discriminate Hn.
    unfold eat. destruct (rest st) as [|x t]; [reflexivity|].
    cbn [atom_match]. destruct (char_eq fl p x) eqn:E; [|reflexivity].
    apply (lit_only fl p c x Hn) in E. subst x.
    cbn [contains existsb] in Hc. rewrite N.eqb_refl in Hc. discriminate Hc.
  - destruct (needs fl c r1) eqn:N1.
    + rewrite IH1 by auto. reflexivity.
    + cbn [orb] in Hn. apply flat_map_nil. intros st1 H1.
      apply IH2; [exact Hn|].
      destruct (run_forward _ _ _ _ H1) as [w Hw]. rewrite Hw in Hc.
      eapply contains_suffix, Hc.
  - apply andb_prop in Hn. destruct Hn as [N1 N2].
    rewrite IH1, IH2 by auto. reflexivity.
  - rewrite IH1 by auto. reflexivity.
  - apply andb_prop in Hn. destruct Hn as [-> N1].
    destruct (length (rest st)) as [|f].
    + rewrite iter_0, IH1 by auto. reflexivity.
    + rewrite iter_S, IH1 by auto. reflexivity.
Qed.

Lemma finditer_from_needs (fl : flags) (c : char) (r : regex) :
  needs fl c r = true ->
  forall fuel st,
    contains c (rest st) = false -> finditer_from fl r fuel st = [].
Proof.
  intros Hn. induction fuel as [|f IH]; intros st Hc; [reflexivity|].
  cbn [finditer_from]. rewrite (run_needs fl c r Hn st Hc).
  unfold advance. destruct (rest st) as [|x t] eqn:E; [reflexivity|].
  apply IH. cbn [rest]. cbn [contains existsb] in Hc.
  apply orb_false_elim in Hc. apply Hc.
Qed.

Lemma finditer_needs (fl : flags) (c : char) (r : regex) (s : str) :
  needs fl c r = true -> contains c s = false -> finditer fl r s = [].
Proof. intros Hn Hc. apply (finditer_from_needs fl c r Hn). exact Hc. Qed.

Lemma sub_from_needs (fl : flags) (c : char) (r : regex)
      (repl : list (nat * str) -> str) :
  needs fl c r = true ->
  forall fuel st,
    contains c (rest st) = false -> sub_from fl r repl fuel st = rest st.
Proof.
  intros Hn. induction fuel as [|f IH]; intros st Hc; [reflexivity|].
  rewrite sub_from_S. cbv zeta. rewrite (run_needs fl c r Hn st Hc).
  unfold advance. destruct (rest st) as [|x t] eqn:E; [reflexivity|].
  rewrite IH; [reflexivity|]. cbn [rest]. cbn [contains existsb] in Hc.
  apply orb_false_elim in Hc. apply Hc.
Qed.

Lemma sub_needs (fl : flags) (c : char) (r : regex)
      (repl : list (nat * str) -> str) (s : str) :
  needs fl c r = true -> contains c s = false -> sub fl r repl s = s.
Proof. intros Hn Hc. apply (sub_from_needs fl c r repl Hn). exact Hc. Qed.

(** ** A text without delimiters *)

Lemma split_lines_nonempty (s : str) : split_lines s <> [].
Proof.
  induction s as [|c s IH]; cbn [split_lines]; [discriminate|].
  destruct (c =? nl)%N; [discriminate|].
  destruct (split_lines s); discriminate.
Qed.

Lemma join_lines_cons (c : char) (l : str) (ls : list str) :
  join_lines ((c :: l) :: ls) = c :: join_lines (l :: ls).
Proof. destruct ls; reflexivity. Qed.

Lemma join_split (s : str) : join_lines (split_lines s) = s.
Proof.
  induction s as [|c s IH]; [reflexivity|].
  cbn [split_lines]. destruct (c =? nl)%N eqn:E.
  - apply N.eqb_eq in E. subst c.
    pose proof (split_lines_nonempty s) as Hne.
    destruct (split_lines s) as [|l ls]; [contradiction|].
    cbn [join_lines app] in *. rewrite IH. reflexivity.
  - pose proof (split_lines_nonempty s) as Hne.
    destruct (split_lines s) as [|l ls]; [contradiction|].
    rewrite join_lines_cons, IH. reflexivity.
Qed.

Lemma split_lines_without (c : char) (s : str) :
  contains c s = false ->
  Forall (fun l => contains c l = false) (split_lines s).
Proof.
  induction s as [|x s IH]; intros H.
  - repeat constructor.
  - cbn [contains existsb] in H. apply orb_false_elim in H.
    destruct H as [Hx Hs]. specialize (IH Hs). cbn [split_lines].
    destruct (x =? nl)%N; [constructor; [reflexivity | exact IH]|].
    destruct (split_lines s) as [|l ls].
    + repeat constructor. cbn [contains existsb]. rewrite Hx. reflexivity.
    + inversion IH; subst. constructor; [|assumption].
      cbn [contains existsb]. rewrite Hx. assumption.
Qed.

Lemma fix_escapes_without (line : str) :
  contains bslash line = false -> fix_escapes line = line.
Proof. apply sub_needs. reflexivity. Qed.

Lemma normalize_without (s : str) :
  contains bslash s = false -> normalize s = s.
Proof.
  intros H. unfold normalize.
  rewrite <- (join_split s) at 2. f_equal.
  pose proof (split_lines_without bslash s H) as HF.
  induction HF as [|l ls Hl _ IH]; [reflexivity|].
  cbn [map]. rewrite (fix_escapes_without l Hl), IH. reflexivity.
Qed.

Lemma collect_without (s : str) :
  contains dollar s = false -> contains bslash s = false -> collect s = [].
Proof.
  intros Hd Hb. unfold collect, collect_guarded, collect_inline_dollar,
    collect_block_dollar.
  rewrite (@finditer_needs DOTALL dollar pat_block_dollar s eq_refl Hd).
  rewrite (@finditer_needs DOTALL bslash pat_block_bracket s eq_refl Hb).
  rewrite (@finditer_needs no_flags dollar pat_inline_dollar s eq_refl Hd).
  rewrite (@finditer_needs no_flags bslash pat_inline_paren s eq_refl Hb).
  reflexivity.
Qed.

Lemma resolve_without (s : str) :
  contains dollar s = false -> contains bslash s = false -> resolve s = [].
Proof.
  intros Hd Hb. unfold resolve. rewrite (collect_without s Hd Hb).
  reflexivity.
Qed.

Lemma clean_html_without (s : str) :
  contains langle s = false -> clean_html_content s = s.
Proof.
  intros H. unfold clean_html_content, drop.
  destruct (negb (truthy s)); [reflexivity|].
  rewrite !(fun r E => @sub_needs IGNORECASE langle r (fun _ => []) s E H)
    by reflexivity.
  reflexivity.
Qed.

Lemma blank_without (c : char) (s : str) :
  isspace c = false -> forallb isspace s = true -> contains c s = false.
Proof.
  intros Hc. unfold contains.
  induction s as [|x s IH]; intros H; [reflexivity|].
  cbn [forallb] in H. apply andb_prop in H. destruct H as [Hx Hs].
  cbn [existsb]. rewrite (IH Hs), orb_false_r.
  apply N.eqb_neq. intros ->. congruence.
Qed.

Lemma blank_no_content (s : str) :
  forallb isspace s = true -> has_real_content s = false.
Proof.
  intros H. rewrite has_real_content_exists.
  induction s as [|x s IH]; [reflexivity|].
  cbn [forallb] in H. apply andb_prop in H. destruct H as [Hx Hs].
  cbn [existsb]. unfold visible at 1. rewrite Hx, (IH Hs). reflexivity.
Qed.

(** C8.  An input that is empty or holds whitespace only leaves no span
    and no segment, and the function returns normally without a single
    call, whatever the surface. *)
Theorem blank_input_renders_nothing (st : surface) (input : str) :
  forallb isspace input = true ->
  resolve (normalize input) = []
  /\ segments (normalize input) (resolve (normalize input)) = []
  /\ run_on st input = ([], returned tt).
Proof.
  intros H.
  assert (Hb : contains bslash input = false)
    by (apply blank_without; [reflexivity | exact H]).
  assert (Hd : contains dollar input = false)
    by (apply blank_without; [reflexivity | exact H]).
  assert (Hr : resolve (normalize input) = []).
  { rewrite (normalize_without input Hb). apply resolve_without; assumption. }
  split; [exact Hr|]. split.
  - rewrite Hr, (normalize_without input Hb). unfold segments.
    cbn [fold_left skipn]. rewrite (blank_no_content input H).
    destruct (0 <? length input); reflexivity.
  - unfold run_on, render_text_with_latex. rewrite Hr.
    destruct (negb (truthy input)); [reflexivity|].
    rewrite (normalize_without input Hb). unfold emit_text.
    rewrite (blank_no_content input H). reflexivity.
Qed.

Lemma blank_input_renders_nothing_witness :
  resolve (normalize (U "  " ++ [nl; 9%N; 12288%N])) = []
  /\ segments (normalize (U "  " ++ [nl; 9%N; 12288%N]))
              (resolve (normalize (U "  " ++ [nl; 9%N; 12288%N]))) = []
  /\ run_on no_math (U "  " ++ [nl; 9%N; 12288%N]) = ([], returned tt).
Proof.
  apply (@blank_input_renders_nothing no_math (U "  " ++ [nl; 9%N; 12288%N])).
  vm_compute. reflexivity.
Defined.

(** ** Rendering again what was rendered *)

Lemma lstrip_without (c : char) (s : str) :
  contains c s = false -> contains c (lstrip s) = false.
Proof.
  unfold contains. induction s as [|x s IH]; intros H; [reflexivity|].
  cbn [lstrip]. destruct (isspace x); [|exact H].
  cbn [existsb] in H. apply orb_false_elim in H. apply IH, H.
Qed.

Lemma strip_without (c : char) (s : str) :
  contains c s = false -> contains c (strip s) = false.
Proof.
  intros H. unfold strip, rstrip, contains. rewrite existsb_rev.
  apply lstrip_without. unfold contains. rewrite existsb_rev.
  apply lstrip_without, H.
Qed.

Lemma lstrip_head (s : str) :
  lstrip s = [] \/ exists v t, lstrip s = v :: t /\ isspace v = false.
Proof.
  induction s as [|x s IH]; [left; reflexivity|].
  cbn [lstrip]. destruct (isspace x) eqn:E; [exact IH|].
  right. exists x, s. split; [reflexivity | exact E].
Qed.


Lemma lstrip_snoc (a : str) (v : char) :
  isspace v = false -> lstrip (a ++ [v]) = lstrip a ++ [v].
Proof.
  intros Hv. induction a as [|x a IH]; cbn [app lstrip].
  - rewrite Hv. reflexivity.
  - destruct (isspace x); [exact IH | reflexivity].
Qed.

Lemma rstrip_cons (v : char) (t : str) :
  isspace v = false -> rstrip (v :: t) = v :: rstrip t.
Proof.
  intros Hv. unfold rstrip. cbn [rev].
  rewrite (@lstrip_snoc (rev t) v Hv), rev_app_distr. reflexivity.
Qed.



(** Writing the render blocks back and rendering again gives the same
    blocks on the mixed example of the spec. *)
Lemma rerendering_mixed_example_is_stable :
  render_blocks (reserialize (render_blocks example_mixed))
  = render_blocks example_mixed.
Proof. vm_compute. reflexivity. Qed.

(** It does not as soon as an inline formula ends a text block that a
    block formula follows: [$a$ $$b$$] is written back as [$a$$$b$$]. *)
Lemma rerendering_adjacent_formulas_differs :
  render_blocks (U "$a$ $$b$$") = [markdown (U "$a$"); latex (U "b")]
  /\ render_blocks (reserialize (render_blocks (U "$a$ $$b$$")))
     = [markdown (U "$a"); latex (U "$b")].
Proof. split; vm_compute; reflexivity. Qed.

(** ** The normalizer *)

(** [reduce_runs] run by run: [k] backslashes, then [tail]. *)
Lemma reduce_runs_run (s : str) :
  forall n,
    let k := run_length is_bslash s in
    let tail := skipn k s in
    reduce_runs n s
    = match tail with
      | [] => repeat bslash (n + k)
      | c :: t =>
          (if opens c && (2 <=? n + k)
           then repeat bslash (n + k - 1)
           else repeat bslash (n + k))
            ++ c :: reduce_runs 0 t
      end.
Proof.
  induction s as [|c s IH]; intros n.
  - cbn. rewrite Nat.add_0_r. reflexivity.
  - cbv zeta. cbn [reduce_runs run_length].
    change (is_bslash c) with (c =? bslash)%N.
    destruct (c =? bslash)%N eqn:E; cbn [skipn].
    + rewrite IH. cbv zeta.
      replace (S n + run_length is_bslash s)
        with (n + S (run_length is_bslash s)) by lia.
      reflexivity.
    + rewrite Nat.add_0_r. destruct (opens c && (2 <=? n)); reflexivity.
Qed.

Lemma run_length_ext (p q : char -> bool) (s : str) :
  (forall c, p c = q c) -> run_length p s = run_length q s.
Proof.
  intros H. induction s as [|c s IH]; [reflexivity|].
  cbn [run_length]. rewrite H, IH. reflexivity.
Qed.

Lemma firstn_run_bslash (s : str) :
  firstn (run_length is_bslash s) s = repeat bslash (run_length is_bslash s).
Proof.
  induction s as [|c s IH]; [reflexivity|].
  cbn [run_length]. unfold is_bslash at 1 3.
  destruct (c =? bslash)%N eqn:E; [|reflexivity].
  apply N.eqb_eq in E. subst c. cbn [firstn repeat]. rewrite IH. reflexivity.
Qed.

Lemma skipn_in_run (p : char -> bool) (s : str) (j : nat) :
  j < run_length p s -> exists y t, skipn j s = y :: t /\ p y = true.
Proof.
  revert j. induction s as [|c s IH]; intros j H; cbn [run_length] in H;
    [lia|].
  destruct (p c) eqn:E; [|lia].
  destruct j as [|j]; [exists c, s; split; [reflexivity | exact E]|].
  cbn [skipn]. apply IH. lia.
Qed.

Lemma flat_map_last_of_run {B : Type} (h : nat -> list B) (k : nat) :
  (forall j, 1 <= j < k -> h j = []) ->
  flat_map h (rev (seq 1 k)) = if k =? 0 then [] else h k.
Proof.
  intros H. destruct k as [|k]; [reflexivity|].
  rewrite rev_seq_S. cbn [flat_map Nat.add Nat.eqb].
  rewrite flat_map_nil; [apply app_nil_r|].
  intros j Hj. apply H. apply in_rev, in_seq in Hj. lia.
Qed.

Lemma bracket_atom_opens (c : char) :
  atom_match no_flags bracket_atom c = opens c.
Proof.
  unfold atom_match, bracket_atom, opens, char_eq.
  cbn [ignorecase no_flags xorb existsb].
  rewrite orb_false_r, (N.eqb_sym c lbrack), (N.eqb_sym c lparen).
  reflexivity.
Qed.

Lemma lit_bslash_is (c : char) :
  atom_match no_flags (Lit bslash) c = is_bslash c.
Proof.
  unfold atom_match, char_eq, is_bslash. cbn [ignorecase no_flags].
  apply N.eqb_sym.
Qed.

Lemma opens_not_bslash (c : char) : is_bslash c = true -> opens c = false.
Proof.
  unfold is_bslash. intros H. apply N.eqb_eq in H. subst c. reflexivity.
Qed.

(** What [pat_escape] finds at a cursor in front of a backslash followed by
    [k] more and then [tail]. *)
Lemma run_escape (st : state) (r : str) :
  rest st = bslash :: r ->
  let k := run_length is_bslash r in
  match skipn k r with
  | b :: t =>
      if opens b && (1 <=? k) then
        exists stf,
          run no_flags pat_escape st = [stf]
          /\ rest stf = t
          /\ group 1 (caps stf) ++ group 2 (caps stf) = repeat bslash k ++ [b]
      else run no_flags pat_escape st = []
  | [] => run no_flags pat_escape st = []
  end.
Proof.
  intros Hr k.
  set (st1 := eaten 1 st).
  assert (Hr1 : rest st1 = r) by (unfold st1; rewrite rest_eaten, Hr; reflexivity).
  set (G2 := Group 2 (Atom bracket_atom)).
  set (h := fun j => run no_flags G2 (close_group 1 st1 (eaten j st1))).
  assert (Hrun : run no_flags pat_escape st = flat_map h (rev (seq 1 k))).
  { unfold pat_escape. cbn [run].
    rewrite (@eat_hit _ st bslash r Hr) by reflexivity.
    cbn [flat_map]. rewrite app_nil_r. fold st1.
    change (iter true (eat (atom_match no_flags (Lit bslash)))
                 (length (rest st1)) st1)
      with (run no_flags (plus (Atom (Lit bslash))) st1).
    rewrite run_plus_atom, Hr1.
    rewrite (run_length_ext _ is_bslash r lit_bslash_is). fold k.
    rewrite map_map, flat_map_concat_map, map_map, <- flat_map_concat_map.
    reflexivity. }
  assert (Hmiss : forall j, 1 <= j < k -> h j = []).
  { intros j Hj. unfold h, G2. cbn [run]. unfold eat.
    cbn [close_group rest]. rewrite rest_eaten, Hr1.
    destruct (@skipn_in_run is_bslash r j) as (y & t & -> & Hy); [fold k; lia|].
    rewrite bracket_atom_opens, (opens_not_bslash _ Hy). reflexivity. }
  rewrite (@flat_map_last_of_run _ h k Hmiss) in Hrun.
  destruct (skipn k r) as [|b t] eqn:Et.
  - rewrite Hrun. destruct (k =? 0); [reflexivity|].
    unfold h, G2. cbn [run]. unfold eat. cbn [close_group rest].
    rewrite rest_eaten, Hr1, Et. reflexivity.
  - destruct (1 <=? k) eqn:Ek.
    + apply Nat.leb_le in Ek.
      assert ((k =? 0) = false) as E0 by (apply Nat.eqb_neq; lia).
      rewrite E0 in Hrun. rewrite andb_true_r.
      unfold h, G2 in Hrun. cbn [run] in Hrun. unfold eat in Hrun.
      cbn [close_group rest] in Hrun.
      rewrite rest_eaten, Hr1, Et, bracket_atom_opens in Hrun.
      destruct (opens b); [|exact Hrun].
      cbn [map] in Hrun. eexists. split; [exact Hrun|].
      split; [reflexivity|].
      cbn [close_group caps rest group Nat.eqb].
      rewrite rest_eaten, Hr1, Et. cbn [length].
      replace (S (length t) - length t) with 1 by lia.
      cbn [firstn]. f_equal.
      assert (Hk : length r - S (length t) = k).
      { change (S (length t)) with (length (b :: t)).
        rewrite <- Et, length_skipn.
        pose proof (run_length_le is_bslash r) as Hle. fold k in Hle. lia. }
      rewrite Hk. apply firstn_run_bslash.
    + apply Nat.leb_gt in Ek. assert (k = 0) as E0 by lia.
      rewrite andb_false_r. rewrite Hrun, E0. reflexivity.
Qed.

Lemma run_escape_other (st : state) :
  match rest st with
  | c :: _ => is_bslash c = false
  | [] => True
  end ->
  run no_flags pat_escape st = [].
Proof.
  intros H. unfold pat_escape. cbn [run]. unfold eat.
  destruct (rest st) as [|c t]; [reflexivity|].
  rewrite lit_bslash_is, H. reflexivity.
Qed.

Lemma fix_escapes_from :
  forall fuel st,
    length (rest st) < fuel ->
    sub_from no_flags pat_escape (fun gs => group 1 gs ++ group 2 gs) fuel st
    = reduce_runs 0 (rest st).
Proof.
  induction fuel as [|f IH]; intros st Hf; [lia|].
  rewrite sub_from_S. cbv zeta.
  destruct (rest st) as [|c r] eqn:Hr.
  - rewrite run_escape_other by (rewrite Hr; exact I). reflexivity.
  - unfold advance. rewrite Hr.
    assert (Hnext : reduce_runs 0
                      (rest {| seen := c :: seen st; rest := r; caps := [] |})
                    = reduce_runs 0 r) by reflexivity.
    destruct (is_bslash c) eqn:Ec.
    + unfold is_bslash in Ec. apply N.eqb_eq in Ec. subst c.
      pose proof (run_escape st Hr) as Hesc. cbv zeta in Hesc.
      pose proof (reduce_runs_run r 1) as G1.
      pose proof (reduce_runs_run r 0) as G0. cbv zeta in G0, G1.
      change (reduce_runs 0 (bslash :: r)) with (reduce_runs 1 r).
      set (k := run_length is_bslash r) in *.
      destruct (skipn k r) as [|b t] eqn:Et.
      * rewrite Hesc, IH by (simpl in *; lia).
        rewrite Hnext, G0, G1. reflexivity.
      * destruct (opens b) eqn:Eb, (1 <=? k) eqn:Ek; cbn [andb] in *.
        -- destruct Hesc as (stf & -> & Ht & Hg).
           rewrite Hg, Ht.
           assert (Hlen : length t < length r).
           { pose proof (length_skipn k r) as Hs. rewrite Et in Hs.
             simpl in Hs. lia. }
           assert ((length t <? length (bslash :: r)) = true) as ->
               by (apply Nat.ltb_lt; simpl; lia).
           rewrite IH by (rewrite rest_restart, Ht; simpl in Hf; lia).
           rewrite rest_restart, Ht, G1.
           apply Nat.leb_le in Ek.
           assert ((2 <=? 1 + k) = true) as -> by (apply Nat.leb_le; lia).
           replace (1 + k - 1) with k by lia.
           rewrite <- app_assoc. reflexivity.
        -- rewrite Hesc, IH by (simpl in *; lia).
           rewrite Hnext, G0, G1.
           apply Nat.leb_gt in Ek.
           assert ((2 <=? 1 + k) = false) as -> by (apply Nat.leb_gt; lia).
           assert ((2 <=? 0 + k) = false) as -> by (apply Nat.leb_gt; lia).
           reflexivity.
        -- rewrite Hesc, IH by (simpl in *; lia).
           rewrite Hnext, G0, G1. reflexivity.
        -- rewrite Hesc, IH by (simpl in *; lia).
           rewrite Hnext, G0, G1. reflexivity.
    + rewrite run_escape_other by (rewrite Hr; exact Ec).
      rewrite IH by (simpl in *; lia). rewrite Hnext.
      cbn [reduce_runs]. unfold is_bslash in Ec. rewrite Ec, andb_false_r.
      reflexivity.
Qed.

Lemma fix_escapes_reduce (line : str) : fix_escapes line = reduce_runs 0 line.
Proof.
  unfold fix_escapes, sub. apply fix_escapes_from. simpl. lia.
Qed.

(** C7, as the function has it.  On each line, one by one, the
    preprocessing writes every run of two or more backslashes directly in
    front of [[] or [(] with one backslash less and changes nothing else.
    Backslashes in front of []] are not touched: on [\\[ a=b \\]] the text
    becomes [\[ a=b \\]], the bracket scan closes at the last backslash,
    and the one formula rendered is [a=b \]. *)
Theorem normalizer_drops_one_backslash :
  (forall line, fix_escapes line = spec_fix_escapes line)
  /\ (forall txt, normalize txt = spec_normalize txt)
  /\ normalize example_doubled = U "\[ a=b \\]"
  /\ run_on accepting example_doubled
     = ([latex (U "a=b " ++ [bslash])], returned tt).
Proof.
  split; [exact fix_escapes_reduce|].
  split.
  - intros txt. unfold normalize, spec_normalize. f_equal.
    apply map_ext. exact fix_escapes_reduce.
  - split; vm_compute; reflexivity.
Qed.

(** * Further properties of the code *)

(** ** The two content tests *)

(** X1.  [has_real_content] answers whether the string holds a character
    that is not whitespace. *)
Theorem has_real_content_iff_visible (s : str) :
  has_real_content s = true <-> exists c, In c s /\ isspace c = false.
Proof.
  rewrite has_real_content_exists. split.
  - intros H. apply existsb_exists in H. destruct H as (c & Hin & Hv).
    exists c. split; [exact Hin|]. apply negb_true_iff. exact Hv.
  - intros (c & Hin & Hc). apply existsb_exists. exists c.
    split; [exact Hin|]. unfold visible. rewrite Hc. reflexivity.
Qed.

Lemma has_real_content_check_eq (s : str) :
  has_real_content_check s = has_real_content s.
Proof.
  unfold has_real_content_check. destruct s as [|c s]; [reflexivity|].
  cbn [truthy negb]. cbv iota.
  rewrite sub_spaces, has_real_content_exists.
  change (0 <? length (filter visible (strip (c :: s))))
    with (hasContent (strip (c :: s))).
  rewrite hasContent_exists. apply strip_visible.
Qed.

(** X2.  The page script's own test, [has_real_content_check], gives on
    every string the answer [has_real_content] gives: stripping first
    changes nothing. *)
Theorem content_check_agrees (s : str) :
  has_real_content_check s = has_real_content s.
Proof. apply has_real_content_check_eq. Qed.

Lemma valid_knowledge_fold (l : list str) :
  forall acc,
    fold_left
      (fun acc knowledge =>
         if truthy knowledge && has_real_content_check knowledge
         then acc ++ [knowledge] else acc) l acc
    = acc ++ filter has_real_content l.
Proof.
  induction l as [|k l IH]; intros acc; cbn [fold_left filter].
  - rewrite app_nil_r. reflexivity.
  - rewrite IH, has_real_content_check_eq.
    destruct (has_real_content k) eqn:E.
    + rewrite (has_real_content_truthy _ E). cbn [andb].
      rewrite <- app_assoc. reflexivity.
    + rewrite andb_false_r. reflexivity.
Qed.

(** X3.  The knowledge items the page renders are the retrieved items that
    hold a character that is not whitespace, in the order retrieved; empty
    and blank items are left out. *)
Theorem valid_knowledge_keeps_items_with_content (related : list str) :
  valid_knowledge related = filter has_real_content related.
Proof. unfold valid_knowledge. apply valid_knowledge_fold. Qed.

(** ** What the cleaning of HTML and the normalizer can change *)

Lemma subseq_same {A : Type} (l : list A) : subseq l l.
Proof. induction l; constructor; assumption. Qed.

Lemma subseq_after {A : Type} (w l1 l2 : list A) :
  subseq l1 l2 -> subseq l1 (w ++ l2).
Proof. intros H. induction w; cbn [app]; [exact H | constructor; assumption]. Qed.

Lemma subseq_trans {A : Type} (l1 l2 l3 : list A) :
  subseq l1 l2 -> subseq l2 l3 -> subseq l1 l3.
Proof.
  intros H12 H23. revert l1 H12.
  induction H23 as [|x l2 l3 H IH|x l2 l3 H IH]; intros l1 H12.
  - exact H12.
  - constructor. apply IH, H12.
  - inversion H12; subst.
    + apply subseq_skip. apply IH. assumption.
    + apply subseq_take. apply IH. assumption.
Qed.

Lemma subseq_app {A : Type} (a b c d : list A) :
  subseq a b -> subseq c d -> subseq (a ++ c) (b ++ d).
Proof.
  intros Hab Hcd. induction Hab; cbn [app];
    [exact Hcd | apply subseq_skip; assumption
     | apply subseq_take; assumption].
Qed.

Lemma subseq_length {A : Type} (l1 l2 : list A) :
  subseq l1 l2 -> length l1 <= length l2.
Proof. induction 1; simpl; lia. Qed.

(** A substitution by the empty string only takes characters out. *)
Lemma sub_from_deletes (fl : flags) (r : regex) :
  forall fuel st, subseq (sub_from fl r (fun _ => []) fuel st) (rest st).
Proof.
  induction fuel as [|f IH]; intros st; [apply subseq_same|].
  rewrite sub_from_S. cbv zeta.
  assert (Hnext : subseq
                    match rest st with
                    | c :: _ =>
                        match advance st with
                        | Some st1 => c :: sub_from fl r (fun _ => []) f st1
                        | None => []
                        end
                    | [] => []
                    end (rest st)).
  { unfold advance. destruct (rest st) as [|c t] eqn:E; [constructor|].
    apply subseq_take.
    apply (IH {| seen := c :: seen st; rest := t; caps := [] |}). }
  destruct (run fl r st) as [|st' l] eqn:Er; [exact Hnext|].
  cbn [app]. destruct (length (rest st') <? length (rest st)); [|exact Hnext].
  destruct (@run_forward fl r st st') as [w Hw]; [rewrite Er; left; reflexivity|].
  rewrite Hw. apply subseq_after. apply (IH (restart st')).
Qed.

Lemma drop_deletes (pat : regex) (content : str) :
  subseq (drop pat content) content.
Proof. unfold drop, sub. apply (sub_from_deletes IGNORECASE pat). Qed.

(** X4.  [clean_html_content] only deletes: what it returns is its
    argument with some characters left out, the others in their order, so
    it is never longer than the argument. *)
Theorem clean_html_only_deletes (content : str) :
  subseq (clean_html_content content) content
  /\ length (clean_html_content content) <= length content.
Proof.
  assert (H : subseq (clean_html_content content) content).
  { unfold clean_html_content.
    destruct (negb (truthy content)); [apply subseq_same|].
    repeat (eapply subseq_trans; [apply drop_deletes|]).
    apply subseq_same. }
  split; [exact H | apply subseq_length, H].
Qed.

(** X5.  A text without [<] passes [clean_html_content] unchanged. *)
Theorem clean_html_keeps_text_without_tags (content : str) :
  contains langle content = false ->
  clean_html_content content = content.
Proof. apply clean_html_without. Qed.

Lemma clean_html_keeps_text_without_tags_witness :
  clean_html_content (U "a > b and c / d") = U "a > b and c / d".
Proof.
  apply (clean_html_keeps_text_without_tags (U "a > b and c / d")).
  vm_compute. reflexivity.
Defined.

Lemma repeat_snoc {A : Type} (x : A) (n : nat) :
  repeat x n ++ [x] = x :: repeat x n.
Proof. induction n as [|n IH]; [reflexivity|]. cbn. rewrite IH. reflexivity. Qed.

Lemma filter_repeat_bslash (n : nat) :
  filter not_bslash (repeat bslash n) = [].
Proof. induction n as [|n IH]; [reflexivity | exact IH]. Qed.

Lemma reduce_runs_keeps_others (s : str) :
  forall n, filter not_bslash (reduce_runs n s) = filter not_bslash s.
Proof.
  induction s as [|c s IH]; intros n; cbn [reduce_runs].
  - apply filter_repeat_bslash.
  - cbn [filter]. unfold not_bslash at 2. unfold is_bslash.
    destruct (c =? bslash)%N eqn:E; cbn [negb]; [apply IH|].
    assert (Hc : not_bslash c = true)
      by (unfold not_bslash, is_bslash; rewrite E; reflexivity).
    destruct (opens c && (2 <=? n));
      rewrite filter_app, filter_repeat_bslash; cbn [app filter];
      rewrite Hc, IH; reflexivity.
Qed.

Lemma reduce_runs_deletes (s : str) :
  forall n, subseq (reduce_runs n s) (repeat bslash n ++ s).
Proof.
  induction s as [|c s IH]; intros n; cbn [reduce_runs].
  - rewrite app_nil_r. apply subseq_same.
  - destruct (c =? bslash)%N eqn:E.
    + apply N.eqb_eq in E. subst c.
      specialize (IH (S n)). cbn [repeat] in IH.
      rewrite <- repeat_snoc in IH. rewrite <- app_assoc in IH. exact IH.
    + destruct (opens c && (2 <=? n)).
      * apply subseq_app; [|apply subseq_take; apply (IH 0)].
        destruct n as [|n]; [constructor|].
        cbn [Nat.sub repeat]. rewrite Nat.sub_0_r.
        apply subseq_skip. apply subseq_same.
      * apply subseq_app; [apply subseq_same|].
        apply subseq_take. apply (IH 0).
Qed.

Lemma join_lines_two (l : str) (l2 : str) (ls : list str) :
  join_lines (l :: l2 :: ls) = l ++ nl :: join_lines (l2 :: ls).
Proof. reflexivity. Qed.

Lemma join_map_rel (R : str -> str -> Prop) (f : str -> str) :
  (forall a b c d, R a b -> R c d -> R (a ++ nl :: c) (b ++ nl :: d)) ->
  R [] [] ->
  (forall l, R (f l) l) ->
  forall ls, R (join_lines (map f ls)) (join_lines ls).
Proof.
  intros Happ Hnil Hf. induction ls as [|l [|l2 ls] IH].
  - exact Hnil.
  - apply Hf.
  - cbn [map]. cbn [map] in IH. rewrite !join_lines_two.
    apply Happ; [apply Hf | exact IH].
Qed.

(** X6.  The preprocessing only takes backslashes out: the normalized text
    is the text with some characters left out, and every character that is
    not a backslash is still there, in its place among the others; in
    particular the line breaks are. *)
Theorem normalize_only_drops_backslashes (txt : str) :
  subseq (normalize txt) txt
  /\ filter not_bslash (normalize txt) = filter not_bslash txt.
Proof.
  split.
  - rewrite <- (join_split txt) at 2. unfold normalize.
    apply (join_map_rel (fun a b => subseq a b)).
    + intros a b c d Hab Hcd. apply subseq_app; [exact Hab|].
      apply subseq_take. exact Hcd.
    + constructor.
    + intros l. rewrite fix_escapes_reduce. apply (reduce_runs_deletes l 0).
  - rewrite <- (join_split txt) at 2. unfold normalize.
    apply (join_map_rel
             (fun a b => filter not_bslash a = filter not_bslash b)).
    + intros a b c d Hab Hcd. rewrite !filter_app. cbn [filter].
      rewrite Hab, Hcd. reflexivity.
    + reflexivity.
    + intros l. rewrite fix_escapes_reduce. apply reduce_runs_keeps_others.
Qed.

(** ** The overlap removal is greedy *)

Lemma filter_fold_grows (l : list span) :
  forall acc e, In e acc -> In e (fold_left filter_step l acc).
Proof.
  induction l as [|x l IH]; intros acc e H; [exact H|].
  cbn [fold_left]. apply IH. unfold filter_step.
  destruct (existsb (fun e0 => overlap e0 x) acc); [exact H|].
  apply in_or_app. left. exact H.
Qed.

Lemma filter_fold_maximal (l : list span) :
  forall acc m,
    In m l ->
    In m (fold_left filter_step l acc)
    \/ exists e, In e (fold_left filter_step l acc) /\ overlap e m = true.
Proof.
  induction l as [|x l IH]; intros acc m Hin; [destruct Hin|].
  cbn [fold_left]. destruct Hin as [->|Hin]; [|apply IH, Hin].
  unfold filter_step at 2 4.
  destruct (existsb (fun e => overlap e m) acc) eqn:E.
  - right. apply existsb_exists in E. destruct E as (e & He & Ho).
    exists e. split; [apply filter_fold_grows, He | exact Ho].
  - left. apply filter_fold_grows, in_or_app. right. left. reflexivity.
Qed.

(** X7.  The overlap removal leaves nothing out for no reason: every
    collected candidate is accepted or overlaps an accepted span. *)
Theorem discarded_span_overlaps_accepted (input : str) (m : span) :
  let txt := normalize input in
  In m (collect txt) ->
  In m (resolve txt)
  \/ exists e, In e (resolve txt) /\ overlap e m = true.
Proof.
  intros txt Hin. unfold resolve, remove_overlaps.
  apply filter_fold_maximal.
  eapply Permutation_in; [symmetry; apply sort_perm | exact Hin].
Qed.

Lemma discarded_span_overlaps_accepted_witness :
  In (Span 3 6 inline (U "x")) (resolve (normalize example_nested))
  \/ exists e, In e (resolve (normalize example_nested))
               /\ overlap e (Span 3 6 inline (U "x")) = true.
Proof.
  apply (@discarded_span_overlaps_accepted example_nested
           (Span 3 6 inline (U "x"))).
  vm_compute. left. reflexivity.
Defined.

(** ** The first merging loop loses nothing *)

Lemma flat_app (fblock : str -> str) (a b : list part) :
  flat fblock (a ++ b) = flat fblock a ++ flat fblock b.
Proof. apply flat_map_app. Qed.

Lemma has_real_content_app (a b : str) :
  has_real_content b = true -> has_real_content (a ++ b) = true.
Proof.
  rewrite !has_real_content_exists, existsb_app. intros ->.
  apply orb_true_r.
Qed.

Lemma gather_fold_flat (fblock : str -> str) (ps : list part) :
  Forall (fun p => has_real_content (snd p) = true) ps ->
  forall bs cur,
    cur = [] \/ has_real_content cur = true ->
    flat fblock (fst (fold_left gather_step ps (bs, cur)))
      ++ snd (fold_left gather_step ps (bs, cur))
    = (flat fblock bs ++ cur) ++ flat fblock ps
    /\ filter is_block_part (fst (fold_left gather_step ps (bs, cur)))
       = filter is_block_part bs ++ filter is_block_part ps
    /\ (snd (fold_left gather_step ps (bs, cur)) = []
        \/ has_real_content (snd (fold_left gather_step ps (bs, cur))) = true).
Proof.
  induction 1 as [|[tag c] ps Hc _ IH]; intros bs cur Hcur.
  - cbn [fold_left flat flat_map filter fst snd]. rewrite !app_nil_r. auto.
  - cbn [fold_left]. cbn [snd] in Hc. destruct tag.
    + assert (gather_step (bs, cur) (text, c) = (bs, cur ++ c)) as ->
          by (unfold gather_step; rewrite Hc; reflexivity).
      destruct (IH bs (cur ++ c) (or_intror (has_real_content_app cur c Hc)))
        as (H1 & H2 & H3).
      split; [|split; [exact H2 | exact H3]].
      rewrite H1. cbn [flat flat_map fst snd]. rewrite <- !app_assoc.
      reflexivity.
    + assert (gather_step (bs, cur) (inline_latex, c)
              = (bs, cur ++ dollar :: c ++ [dollar])) as ->
          by (unfold gather_step; rewrite Hc; reflexivity).
      assert (Hd : has_real_content (cur ++ dollar :: c ++ [dollar]) = true)
        by (rewrite has_real_content_exists, existsb_app; cbn [existsb];
            rewrite orb_true_r; reflexivity).
      destruct (IH bs (cur ++ dollar :: c ++ [dollar]) (or_intror Hd))
        as (H1 & H2 & H3).
      split; [|split; [exact H2 | exact H3]].
      rewrite H1. cbn [flat flat_map fst snd]. rewrite <- !app_assoc.
      reflexivity.
    + destruct (has_real_content cur) eqn:Ecur.
      * assert (gather_step (bs, cur) (block_latex, c)
                = ((bs ++ [(text, cur)]) ++ [(block_latex, c)], [])) as ->
            by (unfold gather_step; rewrite Ecur, Hc; reflexivity).
        destruct (IH ((bs ++ [(text, cur)]) ++ [(block_latex, c)]) []
                     (or_introl eq_refl)) as (H1 & H2 & H3).
        split; [|split; [|exact H3]].
        -- rewrite H1, !flat_app. cbn [flat flat_map fst snd].
           rewrite !app_nil_r, <- !app_assoc. reflexivity.
        -- rewrite H2, !filter_app. cbn [filter is_block_part fst].
           rewrite app_nil_r, <- app_assoc. reflexivity.
      * assert (cur = []) as ->
            by (destruct Hcur as [E|E]; [exact E | congruence]).
        assert (gather_step (bs, []) (block_latex, c)
                = (bs ++ [(block_latex, c)], [])) as ->
            by (unfold gather_step; rewrite has_real_content_nil, Hc;
                reflexivity).
        destruct (IH (bs ++ [(block_latex, c)]) [] (or_introl eq_refl))
          as (H1 & H2 & H3).
        split; [|split; [|exact H3]].
        -- rewrite H1, !flat_app. cbn [flat flat_map fst snd].
           rewrite !app_nil_r, <- !app_assoc. reflexivity.
        -- rewrite H2, !filter_app. cbn [filter is_block_part fst].
           rewrite <- app_assoc. reflexivity.
Qed.

Lemma gather_flat (fblock : str -> str) (ps : list part) :
  Forall (fun p => has_real_content (snd p) = true) ps ->
  flat fblock (gather ps) = flat fblock ps
  /\ filter is_block_part (gather ps) = filter is_block_part ps.
Proof.
  intros H. unfold gather.
  destruct (gather_fold_flat fblock H [] (or_introl eq_refl))
    as (G1 & G2 & G3).
  destruct (fold_left gather_step ps ([], [])) as [bs cur].
  cbn [flat flat_map filter app fst snd] in G1, G2, G3.
  unfold flush. destruct (has_real_content cur) eqn:E.
  - split.
    + rewrite flat_app. cbn [flat flat_map fst snd]. rewrite app_nil_r.
      exact G1.
    + rewrite filter_app. cbn [filter is_block_part fst].
      rewrite app_nil_r. exact G2.
  - assert (cur = []) as -> by (destruct G3 as [E'|E']; [exact E' | congruence]).
    rewrite app_nil_r in G1. split; assumption.
Qed.

(** X8.  The first merging loop loses and reorders nothing: read back as
    one text, with text as it is, inline formulas between dollars and
    block formulas written in whatever way, its blocks give what the
    segments give; and its block formulas are the block segments, in
    order. *)
Theorem gather_keeps_everything (input : str) (fblock : str -> str) :
  let txt := normalize input in
  let parts := segments txt (resolve txt) in
  flat fblock (gather parts) = flat fblock parts
  /\ filter is_block_part (gather parts) = filter is_block_part parts.
Proof.
  intros txt parts. apply gather_flat, segments_have_content.
Qed.

(** ** When the function raises *)

Lemma fails_ret (st : surface) : fails_by_escape st (ret tt).
Proof. intros tr tr' e H. discriminate H. Qed.

Lemma fails_invoke_markdown (st : surface) (b : str) :
  fails_by_escape st (invoke st (markdown b)).
Proof.
  intros tr tr' e H. unfold invoke in H.
  destruct (st tr (markdown b)) as [|e'] eqn:E; [discriminate H|].
  injection H as <- <-. exists tr, (markdown b).
  split; [reflexivity|]. split; [exact E | left; reflexivity].
Qed.

Lemma fails_bind (st : surface) (m k : io unit) :
  fails_by_escape st m -> fails_by_escape st k ->
  fails_by_escape st (m ;; k).
Proof.
  intros Hm Hk tr tr' e H. unfold bind in H.
  destruct (m tr) as [tr1 [[]|e']] eqn:E.
  - apply (Hk tr1 tr' e H).
  - injection H as <- <-. apply (Hm tr tr1 e' E).
Qed.

Lemma fails_try (st : surface) (m h : io unit) :
  fails_by_escape st h -> fails_by_escape st (try_except m h).
Proof.
  intros Hh tr tr' e H. unfold try_except in H.
  destruct (m tr) as [tr1 [[]|e']] eqn:E; [discriminate H|].
  apply (Hh tr1 tr' e H).
Qed.

(** Under [except Exception] a call lets out what is no [Exception]. *)
Lemma fails_try_Exception (st : surface) (c : call) (h : io unit) :
  fails_by_escape st h ->
  fails_by_escape st (try_except_Exception (invoke st c) h).
Proof.
  intros Hh tr tr' e H. unfold try_except_Exception, invoke in H.
  destruct (st tr c) as [|[|]] eqn:E.
  - discriminate H.
  - apply (Hh _ tr' e H).
  - injection H as <- <-. exists tr, c.
    split; [reflexivity|]. split; [exact E | right; reflexivity].
Qed.

Lemma fails_when (st : surface) (b : bool) (m : io unit) :
  fails_by_escape st m -> fails_by_escape st (when b m).
Proof. intros Hm. unfold when. destruct b; [exact Hm | apply fails_ret]. Qed.

Lemma fails_emit_text (st : surface) (content : str) :
  fails_by_escape st (emit_text st content).
Proof.
  unfold emit_text. apply fails_when, fails_when, fails_invoke_markdown.
Qed.

Lemma fails_emit_formula (st : surface) (block_content : str) :
  fails_by_escape st (emit_formula st block_content).
Proof.
  unfold emit_formula.
  apply fails_when, fails_try_Exception, fails_when, fails_try,
    fails_invoke_markdown.
Qed.

Lemma fails_emit (st : surface) (blocks : list part) :
  fails_by_escape st (emit st blocks).
Proof.
  induction blocks as [|[tag c] blocks IH]; cbn [emit].
  - apply fails_ret.
  - apply fails_bind; [|exact IH]. unfold emit_block. cbn [fst snd].
    destruct tag; [apply fails_emit_text | |]; apply fails_emit_formula.
Qed.

Lemma fails_render (st : surface) (input : str) :
  fails_by_escape st (render_text_with_latex st input).
Proof.
  unfold render_text_with_latex.
  destruct (negb (truthy input)); [apply fails_ret|].
  destruct (resolve (normalize input));
    [apply fails_emit_text | apply fails_emit].
Qed.

Lemma run_on_fails (st : surface) (input : str) (e : failure) :
  snd (run_on st input) = raised e ->
  escaped st (fst (run_on st input)) e.
Proof.
  intros H. unfold run_on in *.
  destruct (render_text_with_latex st input []) as [tr' o] eqn:E.
  cbn [fst snd] in *. subst o. apply (fails_render st input [] E).
Qed.

(** X9.  However the surface answers, when [render_text_with_latex] ends
    with an exception, that exception is what its last call raised, and
    the call was an [st.markdown] call or the exception is no [Exception]:
    an [Exception] raised by [st.latex] never leaves the function. *)
Theorem escaping_failure_is_markdown_or_no_Exception
        (st : surface) (input : str) (e : failure) :
  snd (run_on st input) = raised e ->
  exists tr0 c,
    fst (run_on st input) = tr0 ++ [c]
    /\ st tr0 c = raises e
    /\ (is_markdown c = true \/ e = base_exception).
Proof. apply run_on_fails. Qed.

Lemma escaping_failure_is_markdown_or_no_Exception_witness :
  exists tr0 c,
    fst (run_on no_markup (U "x $$y$$")) = tr0 ++ [c]
    /\ no_markup tr0 c = raises exception
    /\ (is_markdown c = true \/ exception = base_exception).
Proof.
  apply (@escaping_failure_is_markdown_or_no_Exception
           no_markup (U "x $$y$$") exception).
  vm_compute. reflexivity.
Defined.

(** X10.  On a surface whose [st.markdown] never raises and whose
    [st.latex] raises nothing but [Exception]s, the function returns
    normally for every input. *)
Theorem returns_when_latex_raises_Exceptions_only
        (st : surface) (input : str) :
  (forall tr b, st tr (markdown b) = returns) ->
  (forall tr b, st tr (latex b) <> raises base_exception) ->
  snd (run_on st input) = returned tt.
Proof.
  intros Hmd Hlx.
  destruct (snd (run_on st input)) as [[]|e] eqn:E; [reflexivity|].
  destruct (run_on_fails st input E) as (tr0 & c & _ & Hrej & Hc).
  destruct c as [b|b].
  - rewrite Hmd in Hrej. discriminate Hrej.
  - destruct Hc as [Hc | ->]; [discriminate Hc|].
    exfalso. apply (Hlx tr0 b Hrej).
Qed.

Lemma returns_when_latex_raises_Exceptions_only_witness :
  snd (run_on no_math (U "x $$y$$ z")) = returned tt.
Proof.
  apply (@returns_when_latex_raises_Exceptions_only no_math (U "x $$y$$ z")).
  - intros tr b. reflexivity.
  - intros tr b H. discriminate H.
Defined.

(** ** A text without formulas *)

Lemma has_content_truthy_and (s : str) :
  truthy s && has_real_content s = has_real_content s.
Proof. destruct s; reflexivity. Qed.

(** X11.  A text that holds no dollar and no backslash never reaches
    [st.latex]: the function makes one [st.markdown] call with the text
    stripped and cleaned of empty HTML, or, when the text or what is left
    of it has no content, no call at all. *)
Theorem text_without_delimiters_is_one_markdown
        (st : surface) (input : str) :
  contains dollar input = false ->
  contains bslash input = false ->
  fst (run_on st input)
  = if has_real_content input
       && has_real_content (clean_html_content (strip input))
    then [markdown (clean_html_content (strip input))]
    else [].
Proof.
  intros Hd Hb. unfold run_on, render_text_with_latex.
  destruct input as [|c s]; [reflexivity|].
  cbn [truthy negb]. cbv iota.
  rewrite (normalize_without _ Hb), (resolve_without _ Hd Hb).
  unfold emit_text, when.
  destruct (has_real_content (c :: s)); [|reflexivity].
  rewrite has_content_truthy_and. cbn [andb].
  destruct (has_real_content (clean_html_content (strip (c :: s))));
    reflexivity.
Qed.

Lemma text_without_delimiters_is_one_markdown_witness :
  fst (run_on no_math (U " a <br> b "))
  = if has_real_content (U " a <br> b ")
       && has_real_content (clean_html_content (strip (U " a <br> b ")))
    then [markdown (clean_html_content (strip (U " a <br> b ")))]
    else [].
Proof.
  apply (@text_without_delimiters_is_one_markdown no_math (U " a <br> b "));
    vm_compute; reflexivity.
Defined.

(** ** The matcher: where a match lies and what group 1 holds *)

Lemma iter_rel (R : state -> state -> Prop) (greedy : bool)
      (body : state -> list state) :
  (forall a b c, R a b -> R b c -> R a c) ->
  (forall st st', In st' (body st) -> R st st') ->
  forall fuel st st', In st' (iter greedy body fuel st) -> R st st'.
Proof.
  intros Htrans Hbody. induction fuel as [|f IH]; intros st st' H.
  - rewrite iter_0 in H. apply in_flat_map in H.
    destruct H as (st1 & H1 & H2).
    assert (st' = st1) as ->
        by (destruct greedy; destruct H2 as [H2|[]]; symmetry; exact H2).
    apply Hbody, H1.
  - rewrite iter_S in H. apply in_flat_map in H.
    destruct H as (st1 & H1 & H2). cbv zeta in H2.
    assert (Hcases : st' = st1
                     \/ In st' (if length (rest st1) <? length (rest st)
                                then iter greedy body f st1 else [])).
    { destruct greedy.
      - apply in_app_or in H2. destruct H2 as [H2|[H2|[]]]; auto.
      - destruct H2 as [H2|H2]; auto. }
    destruct Hcases as [->|H3]; [apply Hbody, H1|].
    destruct (length (rest st1) <? length (rest st)); [|destruct H3].
    eapply Htrans; [apply Hbody, H1 | apply IH, H3].
Qed.

Lemma reach_refl (P : char -> Prop) (st : state) : reach P 0 st st.
Proof.
  exists []. repeat split; auto.
Qed.

Lemma reach_weaken (P : char -> Prop) (k k' : nat) (st st' : state) :
  k' <= k -> reach P k st st' -> reach P k' st st'.
Proof.
  intros Hk (w & H1 & H2 & H3 & H4 & H5). exists w.
  repeat split; auto. lia.
Qed.

Lemma reach_trans (P : char -> Prop) (k1 k2 : nat) (a b c : state) :
  reach P k1 a b -> reach P k2 b c -> reach P (k1 + k2) a c.
Proof.
  intros (w1 & A1 & A2 & A3 & A4 & A5) (w2 & B1 & B2 & B3 & B4 & B5).
  exists (w1 ++ w2). repeat split.
  - rewrite A1, B1, app_assoc. reflexivity.
  - rewrite B2, A2, rev_app_distr, app_assoc. reflexivity.
  - apply Forall_app. split; assumption.
  - rewrite length_app. lia.
  - intros n g H. destruct (B5 n g H) as [H'|H']; [apply A5, H' | right; exact H'].
Qed.

Lemma firstn_consumed (w t : str) :
  firstn (length (w ++ t) - length t) (w ++ t) = w.
Proof.
  rewrite length_app. replace (length w + length t - length t) with (length w)
    by lia.
  rewrite firstn_app, Nat.sub_diag, firstn_all. cbn [firstn].
  apply app_nil_r.
Qed.

Lemma run_reach (fl : flags) (P : char -> Prop) (r : regex) :
  only fl P r ->
  forall st st', In st' (run fl r st) -> reach P (min_width r) st st'.
Proof.
  induction r as [a|r1 IH1 r2 IH2|r1 IH1 r2 IH2|n r1 IH1|many greedy r1 IH1
                  |neg r1 IH1|neg a|]; intros Ho st st' H;
    cbn [run] in H; cbn [only] in Ho; cbn [min_width].
  - unfold eat in H. destruct (rest st) as [|c t] eqn:E; [destruct H|].
    destruct (atom_match fl a c) eqn:Ea; [|destruct H].
    destruct H as [<-|[]]. exists [c]. cbn [rest seen caps rev app length].
    repeat split; auto.
  - destruct Ho as [Ho1 Ho2]. apply in_flat_map in H.
    destruct H as (st1 & H1 & H2).
    eapply reach_trans; [apply IH1 | apply IH2]; eassumption.
  - destruct Ho as [Ho1 Ho2]. apply in_app_or in H. destruct H as [H|H].
    + eapply reach_weaken; [apply Nat.le_min_l | apply IH1; assumption].
    + eapply reach_weaken; [apply Nat.le_min_r | apply IH2; assumption].
  - apply in_map_iff in H. destruct H as (st1 & <- & H1).
    destruct (IH1 Ho _ _ H1) as (w & A1 & A2 & A3 & A4 & A5).
    exists w. cbn [close_group rest seen caps]. repeat split; auto.
    intros k g [Hg|Hg]; [|apply A5, Hg].
    injection Hg as _ <-. right. rewrite A1, firstn_consumed. exact A3.
  - assert (Hit : forall x,
               In x (iter greedy (run fl r1) (length (rest st)) st) ->
               reach P (min_width r1) st x).
    { intros x. apply iter_rel.
      - intros a b c Hab Hbc.
        eapply reach_weaken; [|eapply reach_trans; eassumption]. lia.
      - intros a b. apply IH1, Ho. }
    destruct many; [apply Hit, H|].
    assert (Hor : st' = st
                  \/ In st' (iter greedy (run fl r1) (length (rest st)) st)).
    { destruct greedy.
      - apply in_app_or in H. destruct H as [H|[H|[]]]; auto.
      - destruct H as [H|H]; auto. }
    destruct Hor as [->|Hin]; [apply reach_refl|].
    eapply reach_weaken; [|apply Hit, Hin]. lia.
  - destruct (run fl r1 st) as [|st1 l] eqn:E.
    + destruct neg; [|destruct H]. destruct H as [<-|[]]. apply reach_refl.
    + destruct neg; [destruct H|]. destruct H as [<-|[]].
      destruct (IH1 Ho st st1) as (w & A1 & A2 & A3 & A4 & A5);
        [rewrite E; left; reflexivity|].
      exists []. cbn [rest seen caps rev app length]. repeat split; auto.
  - destruct (xorb neg _); [|destruct H].
    destruct H as [<-|[]]. apply reach_refl.
  - assert (st' = st) as ->.
    { destruct (rest st) as [|c [|c' t]].
      - destruct H as [<-|[]]. reflexivity.
      - destruct (c =? nl)%N; [|destruct H].
        destruct H as [<-|[]]. reflexivity.
      - destruct H. }
    apply reach_refl.
Qed.

Lemma only_anything (fl : flags) (r : regex) : only fl (fun _ => True) r.
Proof.
  induction r as [a|r1 IH1 r2 IH2|r1 IH1 r2 IH2|n r1 IH1|many greedy r1 IH1
                  |neg r1 IH1|neg a|]; cbn [only]; auto.
  destruct neg; auto.
Qed.

Lemma run_group_free (fl : flags) (r : regex) :
  group_free r = true ->
  forall st st', In st' (run fl r st) -> caps st' = caps st.
Proof.
  induction r as [a|r1 IH1 r2 IH2|r1 IH1 r2 IH2|n r1 IH1|many greedy r1 IH1
                  |neg r1 IH1|neg a|]; intros Hg st st' H;
    cbn [run] in H; cbn [group_free] in Hg; try discriminate Hg.
  - unfold eat in H. destruct (rest st) as [|c t]; [destruct H|].
    destruct (atom_match fl a c); [|destruct H].
    destruct H as [<-|[]]. reflexivity.
  - apply andb_prop in Hg. destruct Hg as [G1 G2].
    apply in_flat_map in H. destruct H as (st1 & H1 & H2).
    rewrite (IH2 G2 _ _ H2). apply (IH1 G1 _ _ H1).
  - apply andb_prop in Hg. destruct Hg as [G1 G2].
    apply in_app_or in H. destruct H as [H|H]; auto.
  - assert (Hit : forall x,
               In x (iter greedy (run fl r1) (length (rest st)) st) ->
               caps x = caps st).
    { intros x. apply (iter_rel (fun a b => caps b = caps a)).
      - intros a b c Hab Hbc. congruence.
      - intros a b. apply IH1, Hg. }
    destruct many; [apply Hit, H|].
    destruct greedy.
    + apply in_app_or in H. destruct H as [H|[<-|[]]]; auto.
    + destruct H as [<-|H]; auto.
  - destruct (run fl r1 st) as [|st1 l] eqn:E.
    + destruct neg; [|destruct H]. destruct H as [<-|[]]. reflexivity.
    + destruct neg; [destruct H|]. destruct H as [<-|[]].
      cbn [caps]. cbn [orb] in Hg.
      apply (IH1 Hg st st1). rewrite E. left. reflexivity.
  - destruct (xorb neg _); [|destruct H].
    destruct H as [<-|[]]. reflexivity.
  - destruct (rest st) as [|c [|c' t]].
    + destruct H as [<-|[]]. reflexivity.
    + destruct (c =? nl)%N; [|destruct H].
      destruct H as [<-|[]]. reflexivity.
    + destruct H.
Qed.

Lemma run_word (fl : flags) (r : regex) :
  ignorecase fl = false ->
  forall w st st',
    word_of r = Some w ->
    In st' (run fl r st) ->
    rest st = w ++ rest st'
    /\ seen st' = rev w ++ seen st
    /\ caps st' = caps st.
Proof.
  intros Hfl.
  induction r as [a|r1 IH1 r2 IH2|r1 IH1 r2 IH2|n r1 IH1|many greedy r1 IH1
                  |neg r1 IH1|neg a|]; intros w st st' Hw H;
    cbn [word_of] in Hw; cbn [run] in H; try discriminate Hw.
  - destruct a as [p| | |]; try discriminate Hw.
    injection Hw as <-. unfold eat in H.
    destruct (rest st) as [|c t]; [destruct H|].
    destruct (atom_match fl (Lit p) c) eqn:E; [|destruct H].
    destruct H as [<-|[]]. cbn [rest seen caps rev app].
    cbn [atom_match] in E. unfold char_eq in E. rewrite Hfl in E.
    apply N.eqb_eq in E. subst c. auto.
  - destruct (word_of r1) as [w1|]; [|discriminate Hw].
    destruct (word_of r2) as [w2|]; [|discriminate Hw].
    injection Hw as <-.
    apply in_flat_map in H. destruct H as (st1 & H1 & H2).
    destruct (IH1 w1 st st1 eq_refl H1) as (A1 & A2 & A3).
    destruct (IH2 w2 st1 st' eq_refl H2) as (B1 & B2 & B3).
    split; [rewrite A1, B1, <- app_assoc; reflexivity|].
    split; [|congruence].
    rewrite B2, A2, rev_app_distr, <- app_assoc. reflexivity.
  - destruct neg; [|discriminate Hw]. injection Hw as <-.
    destruct (run fl r1 st); [|destruct H].
    destruct H as [<-|[]]. auto.
  - injection Hw as <-. destruct (xorb neg _); [|destruct H].
    destruct H as [<-|[]]. auto.
  - injection Hw as <-.
    assert (st' = st) as ->; [|auto].
    destruct (rest st) as [|c [|c' t]].
    + destruct H as [<-|[]]. reflexivity.
    + destruct (c =? nl)%N; [|destruct H].
      destruct H as [<-|[]]. reflexivity.
    + destruct H.
Qed.

Lemma run_framed (fl : flags) (P : char -> Prop) (wO wC : str)
      (B r : regex) :
  framed wO B wC r ->
  ignorecase fl = false ->
  only fl P B ->
  forall st st',
    caps st = [] ->
    In st' (run fl r st) ->
    exists wB,
      rest st = wO ++ wB ++ wC ++ rest st'
      /\ seen st' = rev (wO ++ wB ++ wC) ++ seen st
      /\ caps st' = [(1, wB)]
      /\ Forall P wB /\ min_width B <= length wB.
Proof.
  intros Hfr Hfl HP.
  induction Hfr as [B C wC GB WC|a r wa wO B wC Wa Hfr IH];
    intros st st' Hcaps H; cbn [run] in H.
  - apply in_flat_map in H. destruct H as (st2 & H2 & H3).
    apply in_map_iff in H2. destruct H2 as (stB & <- & HB).
    destruct (run_reach fl P B HP _ _ HB) as (wB & B1 & B2 & B3 & B4 & _).
    pose proof (run_group_free fl B GB _ _ HB) as CB.
    destruct (run_word fl C Hfl _ _ WC H3) as (C1 & C2 & CC).
    cbn [close_group rest seen caps] in *.
    exists wB. cbn [app]. repeat split; auto.
    + rewrite B1, C1. reflexivity.
    + rewrite C2, B2, rev_app_distr, app_assoc. reflexivity.
    + rewrite CC, CB, Hcaps, B1, firstn_consumed. reflexivity.
  - apply in_flat_map in H. destruct H as (st1 & H1 & H2).
    destruct (run_word fl a Hfl _ _ Wa H1) as (A1 & A2 & Ca).
    destruct (IH HP st1 st') as (wB & E1 & E2 & E5 & E6 & E7);
      [congruence | exact H2 |].
    exists wB. repeat split; auto.
    + rewrite A1, E1, <- app_assoc. reflexivity.
    + rewrite E2, A2, <- !app_assoc, !rev_app_distr, <- !app_assoc.
      reflexivity.
Qed.

Lemma slice_middle (a g b : str) (i j : nat) :
  i = length a -> j = length a + length g ->
  slice (a ++ g ++ b) i j = g.
Proof.
  intros -> ->. unfold slice.
  replace (length a + length g - length a) with (length g) by lia.
  rewrite skipn_app, skipn_all, Nat.sub_diag. cbn [app skipn].
  rewrite firstn_app, firstn_all, Nat.sub_diag. cbn [firstn].
  apply app_nil_r.
Qed.

Lemma finditer_from_framed (fl : flags) (P : char -> Prop) (wO wC : str)
      (B r : regex) (s : str) :
  framed wO B wC r ->
  ignorecase fl = false ->
  only fl P B ->
  forall fuel st,
    rev (seen st) ++ rest st = s ->
    caps st = [] ->
    Forall (framed_match P wO wC (min_width B) s)
           (finditer_from fl r fuel st).
Proof.
  intros Hfr Hfl HP. induction fuel as [|f IH]; intros st Hs Hcaps;
    [constructor|].
  cbn [finditer_from].
  assert (Hnext : Forall (framed_match P wO wC (min_width B) s)
                         match advance st with
                         | Some st1 => finditer_from fl r f st1
                         | None => []
                         end).
  { unfold advance. destruct (rest st) as [|c t] eqn:E; [constructor|].
    apply IH; [|reflexivity]. cbn [seen rest rev].
    rewrite <- app_assoc. exact Hs. }
  destruct (run fl r st) as [|st' l] eqn:Er; [exact Hnext|].
  destruct (run_framed fl P Hfr Hfl HP st st' Hcaps)
    as (wB & E1 & E2 & E5 & E6 & E7);
    [rewrite Er; left; reflexivity|].
  constructor.
  - unfold framed_match, pos. cbn [m_start m_end m_groups].
    rewrite E5. cbn [group Nat.eqb].
    rewrite E2, length_app, length_rev, !length_app.
    assert (Hlen : length s
                   = length (seen st) + length wO + length wB + length wC
                     + length (rest st')).
    { rewrite <- Hs, E1, !length_app, length_rev. lia. }
    split; [lia|]. split; [lia|].
    split; [|split; [|split; [|split; [exact E6 | exact E7]]]].
    + rewrite <- Hs, E1.
      change (rev (seen st) ++ wO ++ wB ++ wC ++ rest st')
        with (rev (seen st) ++ wO ++ (wB ++ wC ++ rest st')).
      apply slice_middle; rewrite ?length_rev; lia.
    + rewrite <- Hs, E1.
      replace (rev (seen st) ++ wO ++ wB ++ wC ++ rest st')
        with ((rev (seen st) ++ wO ++ wB) ++ wC ++ rest st')
        by (rewrite <- !app_assoc; reflexivity).
      apply slice_middle; rewrite !length_app, length_rev; lia.
    + symmetry. rewrite <- Hs, E1.
      replace (rev (seen st) ++ wO ++ wB ++ wC ++ rest st')
        with ((rev (seen st) ++ wO) ++ wB ++ (wC ++ rest st'))
        by (rewrite <- !app_assoc; reflexivity).
      apply slice_middle; rewrite length_app, length_rev; lia.
  - destruct (length (rest st') <? length (rest st)); [|exact Hnext].
    apply IH; [|reflexivity]. cbn [restart seen rest].
    rewrite E2, rev_app_distr, rev_involutive, <- app_assoc.
    rewrite <- Hs, E1, <- !app_assoc. reflexivity.
Qed.

Lemma finditer_framed (fl : flags) (P : char -> Prop) (wO wC : str)
      (B r : regex) (s : str) :
  framed wO B wC r ->
  ignorecase fl = false ->
  only fl P B ->
  Forall (framed_match P wO wC (min_width B) s) (finditer fl r s).
Proof.
  intros Hfr Hfl HP. unfold finditer.
  apply (@finditer_from_framed fl P wO wC B r s Hfr Hfl HP); reflexivity.
Qed.

(** ** The spans the scans collect *)

Lemma strip_nonempty_content (s : str) :
  truthy (strip s) = true -> has_real_content (strip s) = true.
Proof.
  unfold strip. destruct (lstrip_head s) as [->|(v & t & -> & Hv)];
    [discriminate|].
  intros _. rewrite (@rstrip_cons v t Hv), has_real_content_exists.
  cbn [existsb]. unfold visible at 1. rewrite Hv. reflexivity.
Qed.

Lemma not_nl_contains (g : str) : Forall not_nl g -> contains nl g = false.
Proof.
  unfold contains. induction 1 as [|c g Hc _ IH]; [reflexivity|].
  cbn [existsb]. rewrite IH, orb_false_r. apply N.eqb_neq.
  intros E. apply Hc. symmetry. exact E.
Qed.

Lemma framed_block_dollar :
  exists B, framed (U "$$") B (U "$$") pat_block_dollar.
Proof.
  eexists. unfold pat_block_dollar.
  apply (@framed_open (lit dollar) _ [dollar] [dollar]); [reflexivity|].
  apply (@framed_open (lit dollar) _ [dollar] []); [reflexivity|].
  apply (@framed_body _ (lit dollar >> lit dollar)); reflexivity.
Qed.

Lemma framed_block_bracket :
  exists B, framed (U "\[") B (U "\]") pat_block_bracket.
Proof.
  eexists. unfold pat_block_bracket.
  apply (@framed_open (lit bslash) _ [bslash] [lbrack]); [reflexivity|].
  apply (@framed_open (lit lbrack) _ [lbrack] []); [reflexivity|].
  apply (@framed_body _ (lit bslash >> lit rbrack)); reflexivity.
Qed.

Lemma framed_inline_dollar :
  exists B, framed (U "$") B (U "$") pat_inline_dollar
            /\ only no_flags not_nl B.
Proof.
  eexists. split.
  - unfold pat_inline_dollar.
    apply (@framed_open (not_behind (Lit dollar)) _ [] [dollar]);
      [reflexivity|].
    apply (@framed_open (lit dollar) _ [dollar] []); [reflexivity|].
    apply (@framed_open (not_ahead (one_of [dollar])) _ [] []);
      [reflexivity|].
    apply (@framed_body _ (lit dollar >> not_ahead (lit dollar)));
      reflexivity.
  - cbn [only plus_lazy not_ahead any]. split; [exact I|].
    intros c H. cbn in H. apply negb_true_iff in H.
    apply N.eqb_neq in H. exact H.
Qed.

Lemma framed_inline_paren :
  exists B, framed (U "\(") B (U "\)") pat_inline_paren
            /\ only no_flags not_nl B.
Proof.
  eexists. split.
  - unfold pat_inline_paren.
    apply (@framed_open (lit bslash) _ [bslash] [lparen]); [reflexivity|].
    apply (@framed_open (lit lparen) _ [lparen] []); [reflexivity|].
    apply (@framed_body _ (lit bslash >> lit rparen)); reflexivity.
  - cbn [only plus_lazy not_ahead any]. split; [exact I|].
    intros c H. cbn in H. apply negb_true_iff in H.
    apply N.eqb_neq in H. exact H.
Qed.

(** A match of a framed pattern whose stripped group is not empty gives a
    span that lies in the text, between the pattern's delimiters. *)
Lemma framed_match_span (P : char -> Prop) (wO wC : str) (k : nat)
      (txt : str) (kd : kind) (m : rmatch) :
  In (wO, wC) (delimiters kd) ->
  (kd = inline -> forall g, Forall P g -> Forall not_nl g) ->
  framed_match P wO wC k txt m ->
  truthy (formula_of m) = true ->
  span_in txt (Span (m_start m) (m_end m) kd (formula_of m)).
Proof.
  intros Hd Hnl (M1 & M2 & MO & MC & M3 & M4 & M5) Ht.
  exists wO, wC. cbn [s_start s_end s_kind s_content].
  assert (Hg : group 1 (m_groups m) <> []).
  { intros E. unfold formula_of in Ht. rewrite E in Ht. discriminate Ht. }
  assert (Hlen : 0 < length (group 1 (m_groups m)))
    by (destruct (group 1 (m_groups m)); [congruence | simpl; lia]).
  split; [exact Hd|]. split; [lia|]. split; [exact M2|].
  split; [exact MO|]. split; [exact MC|].
  split; [unfold formula_of; rewrite M3 at 1; reflexivity|].
  split; [apply strip_nonempty_content, Ht|].
  intros Hk. unfold formula_of. apply strip_without, not_nl_contains.
  apply (Hnl Hk), M4.
Qed.

(** The delimiters of a span are equally wide, two characters or one. *)
Lemma span_in_width (txt : str) (sp : span) :
  span_in txt sp ->
  exists d,
    (d = 2 \/ (d = 1 /\ s_kind sp = inline))
    /\ s_start sp + 2 * d < s_end sp
    /\ s_end sp <= length txt
    /\ s_content sp = strip (slice txt (s_start sp + d) (s_end sp - d))
    /\ has_real_content (s_content sp) = true
    /\ (s_kind sp = inline -> contains nl (s_content sp) = false).
Proof.
  intros (o & c & Hd & H1 & H2 & _ & _ & H3 & H4 & H5).
  destruct (s_kind sp) eqn:Ek; cbn [delimiters In] in Hd;
    destruct Hd as [E|[E|[]]]; injection E as <- <-;
    cbn [length U] in *.
  - exists 2. repeat split; auto. lia.
  - exists 2. repeat split; auto. lia.
  - exists 1. repeat split; auto. lia.
  - exists 2. repeat split; auto. lia.
Qed.

Lemma collect_fold_spans (Q : span -> Prop) (kd : kind)
      (step : list span -> rmatch -> list span) (ms : list rmatch) :
  (forall acc m,
      step acc m = acc
      \/ (truthy (formula_of m) = true
          /\ step acc m
             = acc ++ [Span (m_start m) (m_end m) kd (formula_of m)])) ->
  Forall (fun m => truthy (formula_of m) = true ->
                   Q (Span (m_start m) (m_end m) kd (formula_of m))) ms ->
  forall acc, Forall Q acc -> Forall Q (fold_left step ms acc).
Proof.
  intros Hstep HQ. induction HQ as [|m ms Hm _ IH]; intros acc Hacc;
    [exact Hacc|].
  cbn [fold_left]. apply IH.
  destruct (Hstep acc m) as [->|[Ht ->]]; [exact Hacc|].
  apply Forall_app. split; [exact Hacc|]. repeat constructor. apply Hm, Ht.
Qed.

Lemma collect_spans_in (txt : str) : Forall (span_in txt) (collect txt).
Proof.
  unfold collect.
  destruct framed_block_dollar as [B1 F1].
  destruct framed_block_bracket as [B2 F2].
  destruct framed_inline_dollar as (B3 & F3 & O3).
  destruct framed_inline_paren as (B4 & F4 & O4).
  assert (Dbl1 : In (U "$$", U "$$") (delimiters block))
    by (left; reflexivity).
  assert (Dbl2 : In (U "\[", U "\]") (delimiters block))
    by (right; left; reflexivity).
  assert (Din1 : In (U "$", U "$") (delimiters inline))
    by (left; reflexivity).
  assert (Din2 : In (U "\(", U "\)") (delimiters inline))
    by (right; left; reflexivity).
  apply (@collect_fold_spans (span_in txt) inline).
  { intros acc m. cbv beta zeta.
    destruct (negb (is_inside acc (m_start m))); [|left; reflexivity].
    destruct (truthy (formula_of m)); [right; split; reflexivity | left; reflexivity]. }
  { eapply Forall_impl;
      [|apply (@finditer_framed no_flags not_nl _ _ B4 _ txt F4 eq_refl
                 O4)].
    intros m Hm Ht.
    apply (@framed_match_span not_nl _ _ (min_width B4) txt inline m Din2);
      auto. }
  apply (@collect_fold_spans (span_in txt) inline).
  { intros acc m. cbv beta zeta.
    destruct (negb (is_inside acc (m_start m))); [|left; reflexivity].
    destruct (truthy (formula_of m)); cbn [andb]; [|left; reflexivity].
    destruct (negb (contains dollar (formula_of m)));
      [right; split; reflexivity | left; reflexivity]. }
  { eapply Forall_impl;
      [|apply (@finditer_framed no_flags not_nl _ _ B3 _ txt F3 eq_refl
                 O3)].
    intros m Hm Ht.
    apply (@framed_match_span not_nl _ _ (min_width B3) txt inline m Din1);
      auto. }
  apply (@collect_fold_spans (span_in txt) block).
  { intros acc m. cbv beta zeta.
    destruct (negb (is_inside acc (m_start m))); [|left; reflexivity].
    destruct (truthy (formula_of m)); [right; split; reflexivity | left; reflexivity]. }
  { eapply Forall_impl;
      [|apply (@finditer_framed DOTALL (fun _ => True) _ _ B2 _ txt F2
                 eq_refl (only_anything DOTALL B2))].
    intros m Hm Ht.
    apply (@framed_match_span (fun _ => True) _ _ (min_width B2) txt block m
             Dbl2);
      auto. intros E. discriminate E. }
  apply (@collect_fold_spans (span_in txt) block).
  { intros acc m. cbv beta zeta.
    destruct (truthy (formula_of m)); [right; split; reflexivity | left; reflexivity]. }
  { eapply Forall_impl;
      [|apply (@finditer_framed DOTALL (fun _ => True) _ _ B1 _ txt F1
                 eq_refl (only_anything DOTALL B1))].
    intros m Hm Ht.
    apply (@framed_match_span (fun _ => True) _ _ (min_width B1) txt block m
             Dbl1);
      auto. intros E. discriminate E. }
  constructor.
Qed.

Lemma resolve_spans_in (txt : str) : Forall (span_in txt) (resolve txt).
Proof.
  unfold resolve.
  eapply subseq_Forall; [apply remove_overlaps_subseq|].
  eapply Permutation_Forall; [symmetry; apply sort_perm|].
  apply collect_spans_in.
Qed.

(** X12.  Every span the function accepts lies inside the normalized text
    and is more than its delimiters: it starts with [$$] and ends with
    [$$], or starts with [\[] and ends with [\]], when it is a block
    formula, and starts with [$] and ends with [$], or starts with [\(] and
    ends with [\)], when it is an inline one; its content is the text
    between these delimiters, stripped; that content holds a character
    that is not whitespace; and the content of an inline span holds no
    line break. *)
Theorem accepted_spans_lie_in_text (input : str) :
  Forall (span_in (normalize input)) (resolve (normalize input)).
Proof. apply resolve_spans_in. Qed.

(** ** The formulas that reach [st.latex] *)

Lemma walk_blocks (txt : str) (ms : list span) :
  Forall (fun m => has_real_content (s_content m) = true) ms ->
  forall ps last_end,
    filter is_block_part (fst (fold_left (walk_step txt) ms (ps, last_end)))
    = filter is_block_part ps
        ++ map (fun m => (block_latex, s_content m))
               (filter is_block_span ms).
Proof.
  induction 1 as [|m ms Hm _ IH]; intros ps last_end.
  - cbn [fold_left filter map fst]. rewrite app_nil_r. reflexivity.
  - cbn [fold_left].
    assert (Hstep : exists ps1,
               filter is_block_part ps1 = filter is_block_part ps
               /\ walk_step txt (ps, last_end) m
                  = (ps1 ++ [(match s_kind m with
                              | block => block_latex
                              | inline => inline_latex
                              end, s_content m)], s_end m)).
    { unfold walk_step. rewrite Hm.
      eexists. split; [|destruct (s_kind m); reflexivity].
      destruct (last_end <? s_start m); [|reflexivity].
      destruct (has_real_content (slice txt last_end (s_start m)));
        [|reflexivity].
      rewrite filter_app. cbn [filter is_block_part fst]. apply app_nil_r. }
    destruct Hstep as (ps1 & H1 & ->).
    rewrite IH, filter_app, H1. cbn [filter]. unfold is_block_span at 2.
    destruct (s_kind m); cbn [filter is_block_part fst map].
    + rewrite <- app_assoc. reflexivity.
    + rewrite app_nil_r. reflexivity.
Qed.

Lemma segments_blocks (txt : str) (ms : list span) :
  Forall (fun m => has_real_content (s_content m) = true) ms ->
  filter is_block_part (segments txt ms)
  = map (fun m => (block_latex, s_content m)) (filter is_block_span ms).
Proof.
  intros H. unfold segments.
  pose proof (walk_blocks txt H [] 0) as W. cbn [filter app] in W.
  destruct (fold_left (walk_step txt) ms ([], 0)) as [ps last_end].
  cbn [fst] in W.
  destruct (last_end <? length txt); [|exact W].
  destruct (has_real_content (skipn last_end txt)); [|exact W].
  rewrite filter_app. cbn [filter is_block_part fst]. rewrite app_nil_r.
  exact W.
Qed.

Lemma merge_gather (ps : list part) :
  Forall (fun p => has_real_content (snd p) = true) ps ->
  merge (gather ps) = gather ps.
Proof.
  intros H. destruct (gather_shape H) as (bs & Hbs & [E | (c & Hc & E)]);
    rewrite E; destruct (merge_fold_closed Hbs) as [M1 _]; unfold merge.
  - rewrite M1. reflexivity.
  - rewrite fold_left_app, M1. cbn [fold_left merge_step truthy].
    rewrite Hc. unfold flush. rewrite Hc. reflexivity.
Qed.

Lemma closed_entries (bs : list part) :
  closed bs ->
  Forall (fun p => fst p = text
                   \/ (fst p = block_latex
                       /\ has_real_content (snd p) = true)) bs.
Proof.
  induction 1 as [|bs d _ IH Hd|bs c d _ IH Hc Hd].
  - constructor.
  - apply Forall_app. split; [exact IH|].
    constructor; [right; split; [reflexivity | exact Hd] | constructor].
  - apply Forall_app. split; [exact IH|].
    constructor; [left; reflexivity|].
    constructor; [right; split; [reflexivity | exact Hd] | constructor].
Qed.

Lemma latex_bodies_app (a b : list call) :
  latex_bodies (a ++ b) = latex_bodies a ++ latex_bodies b.
Proof. apply flat_map_app. Qed.

Lemma invoke_accepting (c : call) (tr : list call) :
  invoke accepting c tr = (tr ++ [c], returned tt).
Proof. reflexivity. Qed.

Lemma emit_text_accepting (content : str) (tr : list call) :
  snd (emit_text accepting content tr) = returned tt
  /\ latex_bodies (fst (emit_text accepting content tr)) = latex_bodies tr.
Proof.
  unfold emit_text, when.
  destruct (has_real_content content); [|split; reflexivity].
  destruct (truthy _ && has_real_content _); [|split; reflexivity].
  rewrite invoke_accepting. cbn [fst snd]. split; [reflexivity|].
  rewrite latex_bodies_app. apply app_nil_r.
Qed.

Lemma emit_accepting (bs : list part) :
  Forall (fun p => fst p = text
                   \/ (fst p = block_latex
                       /\ has_real_content (snd p) = true)) bs ->
  forall tr,
    snd (emit accepting bs tr) = returned tt
    /\ latex_bodies (fst (emit accepting bs tr))
       = latex_bodies tr ++ map snd (filter is_block_part bs).
Proof.
  induction 1 as [|[tag c] bs Hb _ IH]; intros tr.
  - cbn [emit ret fst snd filter map]. rewrite app_nil_r. auto.
  - cbn [emit]. unfold bind, emit_block. cbn [fst snd] in *.
    destruct Hb as [->|[-> Hc]].
    + destruct (emit_text_accepting c tr) as [E1 E2].
      destruct (emit_text accepting c tr) as [tr1 o]. cbn [fst snd] in *.
      subst o. destruct (IH tr1) as [I1 I2].
      split; [exact I1|]. rewrite I2, E2. reflexivity.
    + unfold emit_formula, when. rewrite Hc.
      unfold try_except_Exception. rewrite invoke_accepting.
      destruct (IH (tr ++ [latex c])) as [I1 I2].
      split; [exact I1|]. rewrite I2, latex_bodies_app.
      cbn [filter is_block_part fst map snd latex_bodies flat_map app].
      rewrite <- app_assoc. reflexivity.
Qed.

Lemma gather_entries (ps : list part) :
  Forall (fun p => has_real_content (snd p) = true) ps ->
  Forall (fun p => fst p = text
                   \/ (fst p = block_latex
                       /\ has_real_content (snd p) = true)) (gather ps).
Proof.
  intros H. destruct (gather_shape H) as (bs & Hbs & [E | (c & Hc & E)]);
    rewrite E.
  - apply closed_entries, Hbs.
  - apply Forall_app. split; [apply closed_entries, Hbs|].
    constructor; [left; reflexivity | constructor].
Qed.

(** X13.  On a surface that renders everything, the formulas that reach
    [st.latex] are the contents of the accepted block spans, each once, in
    the order of their positions in the text; inline spans and plain text
    never reach it. *)
Theorem latex_calls_are_the_block_spans (input : str) :
  latex_bodies (render_blocks input)
  = map s_content (filter is_block_span (resolve (normalize input))).
Proof.
  unfold render_blocks, run_on, render_text_with_latex.
  destruct input as [|c0 s0]; [reflexivity|].
  cbn [truthy negb]. cbv iota.
  set (txt := normalize (c0 :: s0)).
  pose proof (resolve_spans_in txt) as Hin.
  assert (Hc : Forall (fun m => has_real_content (s_content m) = true)
                      (resolve txt)).
  { eapply Forall_impl; [|exact Hin].
    intros m Hm.
    destruct (span_in_width Hm) as (d & _ & _ & _ & _ & H & _). exact H. }
  destruct (resolve txt) as [|m ms] eqn:Er.
  - apply (emit_text_accepting txt []).
  - unfold merged_blocks_of. rewrite Er.
    pose proof (segments_have_content txt (m :: ms)) as Hs.
    rewrite (merge_gather Hs).
    destruct (emit_accepting (gather_entries Hs) []) as [_ E].
    rewrite E. cbn [latex_bodies flat_map app].
    destruct (gather_flat (fun x => x) Hs) as [_ G]. rewrite G.
    rewrite (segments_blocks txt Hc), map_map. reflexivity.
Qed.

(** ** The knowledge retrieval *)

Section SearchFacts.

Variable F : Type.
Variable zero : F.
Variable get_embedding : str -> option (list F).
Variable index : option (faiss_index F).
Variable knowledge_data : list str.

Lemma fit_query_closed_form (d : nat) (q : list F) :
  fit_query zero d q = firstn d q ++ repeat zero (d - length q).
Proof.
  unfold fit_query. destruct (length q =? d) eqn:E; cbn [negb].
  - apply Nat.eqb_eq in E. subst d.
    rewrite firstn_all, Nat.sub_diag. cbn [repeat]. symmetry. apply app_nil_r.
  - apply Nat.eqb_neq in E. destruct (d <? length q) eqn:E1.
    + apply Nat.ltb_lt in E1. replace (d - length q) with 0 by lia.
      cbn [repeat]. symmetry. apply app_nil_r.
    + apply Nat.ltb_ge in E1.
      assert ((length q <? d) = true) as -> by (apply Nat.ltb_lt; lia).
      rewrite firstn_all2 by lia. reflexivity.
Qed.

(** X14.  The query row handed to the index search always has the index's
    dimension: it is the embedding cut to that many values, followed by
    zeros when the embedding is shorter. *)
Theorem query_is_fitted_to_the_index (d : nat) (q : list F) :
  length (fit_query zero d q) = d
  /\ fit_query zero d q = firstn d q ++ repeat zero (d - length q).
Proof.
  split; [|apply fit_query_closed_form].
  rewrite fit_query_closed_form, length_app, length_firstn, repeat_length.
  lia.
Qed.

Lemma take_hit_safe (related : list str) (idx : Z) :
  exists extra,
    take_hit knowledge_data related idx = Some (related ++ extra)
    /\ Forall (fun k => In k knowledge_data) extra.
Proof.
  unfold take_hit.
  destruct (negb (idx =? -1)%Z
            && ((0 <=? idx)%Z && (idx <? Z.of_nat (length knowledge_data))%Z))
    eqn:E.
  - apply andb_prop in E. destruct E as [_ E].
    apply andb_prop in E. destruct E as [E1 E2].
    apply Z.leb_le in E1. apply Z.ltb_lt in E2.
    destruct (nth_error knowledge_data (Z.to_nat idx)) as [k|] eqn:En.
    + exists [k]. split; [reflexivity|]. repeat constructor.
      eapply nth_error_In, En.
    + apply nth_error_None in En. lia.
  - exists []. rewrite app_nil_r. split; [reflexivity | constructor].
Qed.

Lemma take_hits_safe (idx_array : list Z) :
  forall related,
  exists extra,
    take_hits knowledge_data related idx_array = Some (related ++ extra)
    /\ Forall (fun k => In k knowledge_data) extra.
Proof.
  induction idx_array as [|idx row IH]; intros related.
  - exists []. rewrite app_nil_r. split; [reflexivity | constructor].
  - cbn [take_hits]. destruct (take_hit_safe related idx) as (e1 & -> & F1).
    destruct (IH (related ++ e1)) as (e2 & -> & F2).
    exists (e1 ++ e2). rewrite app_assoc. split; [reflexivity|].
    apply Forall_app. split; assumption.
Qed.

Lemma take_rows_safe (indices : list (list Z)) :
  forall related,
  exists extra,
    take_rows knowledge_data related indices = Some (related ++ extra)
    /\ Forall (fun k => In k knowledge_data) extra.
Proof.
  induction indices as [|row rows IH]; intros related.
  - exists []. rewrite app_nil_r. split; [reflexivity | constructor].
  - cbn [take_rows]. destruct (take_hits_safe row related) as (e1 & -> & F1).
    destruct (IH (related ++ e1)) as (e2 & -> & F2).
    exists (e1 ++ e2). rewrite app_assoc. split; [reflexivity|].
    apply Forall_app. split; assumption.
Qed.

Lemma fallback_not_empty (problem_text : str) :
  get_fallback_knowledge problem_text <> [].
Proof.
  unfold get_fallback_knowledge.
  repeat match goal with |- context [if ?b then _ else _] => destruct b end;
    discriminate.
Qed.

(** What the method answers once the search has returned [indices]: the
    items of [knowledge_data] at the positions in range, the fallback
    knowledge when there is none. *)
Lemma search_answer (problem_text : str) (indices : list (list Z)) :
  exists hits,
    take_rows knowledge_data [] indices = Some hits
    /\ Forall (fun k => In k knowledge_data) hits
    /\ (if negb (truthy_list hits)
        then get_fallback_knowledge problem_text
        else hits) <> [].
Proof.
  destruct (take_rows_safe indices []) as (hits & E & Hx).
  exists hits. cbn [app] in E. split; [exact E|]. split; [exact Hx|].
  destruct hits; cbn [truthy_list negb];
    [apply fallback_not_empty | discriminate].
Qed.

(** X15.  What [search_related_knowledge] does, case by case.  Without an
    index it returns the one message.  With an index it raises when the
    embedding call raises, when [min(top_k, ntotal)] is not positive (the
    search refuses it) and when the search itself raises; otherwise it
    returns: no position the search gives makes the indexing of
    [knowledge_data] fail (-1 and positions out of range are skipped), and
    the result is the items found, all of them items of [knowledge_data],
    or the fallback knowledge when none was found.  What it returns is
    never the empty list. *)
Theorem search_returns_knowledge (problem_text : str) (top_k : Z) :
  let result :=
    search_related_knowledge zero get_embedding index knowledge_data
                             problem_text top_k in
  match index with
  | None => result = Some [index_missing]
  | Some ix =>
      match get_embedding problem_text with
      | None => result = None
      | Some q =>
          let k := Z.min top_k (Z.of_nat (ntotal ix)) in
          if (k <=? 0)%Z then result = None
          else
            match search ix (fit_query zero (dim ix) q) k with
            | None => result = None
            | Some indices =>
                exists hits,
                  take_rows knowledge_data [] indices = Some hits
                  /\ Forall (fun item => In item knowledge_data) hits
                  /\ result = Some match hits with
                                   | [] => get_fallback_knowledge problem_text
                                   | _ :: _ => hits
                                   end
            end
      end
  end
  /\ result <> Some [].
Proof.
  unfold search_related_knowledge. cbv zeta.
  destruct index as [ix|]; [|split; [reflexivity | discriminate]].
  destruct (get_embedding problem_text) as [q|];
    [|split; [reflexivity | discriminate]].
  unfold index_search.
  destruct (Z.ltb_spec 0 (Z.min top_k (Z.of_nat (ntotal ix)))) as [Hk|Hk].
  - assert ((Z.min top_k (Z.of_nat (ntotal ix)) <=? 0)%Z = false) as ->
      by (apply Z.leb_gt; exact Hk).
    destruct (search ix (fit_query zero (dim ix) q)
                     (Z.min top_k (Z.of_nat (ntotal ix)))) as [indices|];
      [|split; [reflexivity | discriminate]].
    destruct (search_answer problem_text indices) as (hits & -> & Hx & Hne).
    split.
    + exists hits. split; [reflexivity|]. split; [exact Hx|].
      destruct hits; reflexivity.
    + destruct hits; cbn [truthy_list negb] in *;
        intros [= E]; apply Hne, E.
  - assert ((Z.min top_k (Z.of_nat (ntotal ix)) <=? 0)%Z = true) as ->
      by (apply Z.leb_le; exact Hk).
    split; [reflexivity | discriminate].
Qed.

End SearchFacts.

(** X16.  Every item of the fallback knowledge passes the page's content
    filter, whatever the problem text: the page shows the fallback list in
    full. *)
Theorem fallback_knowledge_is_shown (problem_text : str) :
  valid_knowledge (get_fallback_knowledge problem_text)
  = get_fallback_knowledge problem_text.
Proof.
  unfold valid_knowledge. rewrite valid_knowledge_fold. cbn [app].
  unfold get_fallback_knowledge.
  repeat match goal with |- context [if ?b then _ else _] => destruct b end;
    vm_compute; reflexivity.
Qed.

(** ** The accepted spans from left to right *)

Lemma pairs_combine {A : Type} (R1 R2 R3 : A -> A -> Prop) (Q : A -> Prop)
      (l : list A) :
  (forall a b, R1 a b -> R2 a b -> Q a -> Q b -> R3 a b) ->
  StronglySorted R1 l -> ForallOrdPairs R2 l -> Forall Q l ->
  ForallOrdPairs R3 l.
Proof.
  intros H HS. induction HS as [|a l HS IH Ha]; intros HP HQ.
  - constructor.
  - inversion HP as [|? ? Hb HP']; subst. inversion HQ as [|? ? Qa HQ']; subst.
    constructor; [|apply IH; assumption].
    rewrite Forall_forall in *. intros b Hin.
    apply H; auto.
Qed.

Lemma resolve_chain (txt : str) : ForallOrdPairs before (resolve txt).
Proof.
  apply (@pairs_combine span by_start disjoint before
           (fun m => s_start m < s_end m)).
  - unfold by_start, disjoint, before. intros a b Hs Hd Ha Hb.
    destruct (Nat.le_gt_cases (s_end a) (s_start b)) as [H|H]; [exact H|].
    exfalso. apply (Hd (s_start b)). lia.
  - unfold resolve. eapply subseq_sorted;
      [apply remove_overlaps_subseq | apply sort_sorted].
  - apply remove_overlaps_disjoint.
  - eapply Forall_impl; [|apply resolve_spans_in].
    intros m Hm. destruct (span_in_width Hm) as (d & _ & H & _). lia.
Qed.

(** X17.  The accepted spans lie one after the other in the text: each one
    ends at or before the start of every later one, so the text pieces the
    walk cuts between them never run backwards. *)
Theorem accepted_spans_left_to_right (input : str) :
  ForallOrdPairs before (resolve (normalize input)).
Proof. apply resolve_chain. Qed.

(** ** No candidate starts inside an earlier one *)

Lemma finditer_from_ordered (fl : flags) (r : regex) :
  forall fuel st,
    Forall (fun m => pos st <= m_start m) (finditer_from fl r fuel st)
    /\ ForallOrdPairs (fun a b => m_end a <= m_start b)
                      (finditer_from fl r fuel st).
Proof.
  induction fuel as [|f IH]; intros st; [split; constructor|].
  cbn [finditer_from].
  assert (Hnext : Forall (fun m => pos st <= m_start m)
                         match advance st with
                         | Some st1 => finditer_from fl r f st1
                         | None => []
                         end
                  /\ ForallOrdPairs (fun a b => m_end a <= m_start b)
                       match advance st with
                       | Some st1 => finditer_from fl r f st1
                       | None => []
                       end).
  { unfold advance. destruct (rest st) as [|c t]; [split; constructor|].
    destruct (IH {| seen := c :: seen st; rest := t; caps := [] |})
      as [I1 I2].
    split; [|exact I2]. eapply Forall_impl; [|exact I1].
    unfold pos. cbn [seen length]. intros m Hm. cbv beta in *. lia. }
  destruct (run fl r st) as [|st' l] eqn:Er; [exact Hnext|].
  destruct (@run_reach fl (fun _ => True) r (only_anything fl r) st st')
    as (w & W1 & W2 & _);
    [rewrite Er; left; reflexivity|].
  assert (Hpos : pos st' = pos st + length w).
  { unfold pos. rewrite W2, length_app, length_rev. lia. }
  destruct (length (rest st') <? length (rest st)) eqn:E.
  - destruct (IH (restart st')) as [I1 I2].
    change (pos (restart st')) with (pos st') in I1.
    split.
    + constructor; [cbn [m_start]; lia|].
      eapply Forall_impl; [|exact I1]. intros m Hm. cbv beta in *. lia.
    + constructor; [|exact I2]. exact I1.
  - apply Nat.ltb_ge in E. rewrite W1, length_app in E.
    assert (length w = 0) by lia.
    destruct Hnext as [N1 N2]. split.
    + constructor; [cbn [m_start]; lia | exact N1].
    + constructor; [|exact N2].
      eapply Forall_impl; [|exact N1]. cbn [m_end]. intros m Hm.
      cbv beta in *. lia.
Qed.

Lemma is_inside_one (acc : list span) (x : nat) :
  is_inside acc x = false ->
  Forall (fun a => is_inside [a] x = false) acc.
Proof.
  unfold is_inside. induction acc as [|a acc IH]; intros H; [constructor|].
  cbn [existsb] in H. apply orb_false_elim in H. destruct H as [H1 H2].
  constructor; [|apply IH, H2]. cbn [existsb]. rewrite H1. reflexivity.
Qed.

Lemma guarded_fold_outside (kd : kind) (ms : list rmatch) :
  forall acc,
    ForallOrdPairs starts_outside acc ->
    ForallOrdPairs starts_outside
      (fold_left
         (fun acc m =>
            if negb (is_inside acc (m_start m)) then
              let formula := formula_of m in
              if truthy formula
              then acc ++ [Span (m_start m) (m_end m) kd formula]
              else acc
            else acc) ms acc).
Proof.
  induction ms as [|m ms IH]; intros acc H; [exact H|].
  cbn [fold_left]. apply IH. cbv zeta.
  destruct (is_inside acc (m_start m)) eqn:E; cbn [negb]; [exact H|].
  destruct (truthy (formula_of m)); [|exact H].
  apply pairs_snoc; [exact H|]. apply is_inside_one, E.
Qed.

Lemma inline_dollar_fold_outside (ms : list rmatch) :
  forall acc,
    ForallOrdPairs starts_outside acc ->
    ForallOrdPairs starts_outside
      (fold_left
         (fun acc m =>
            if negb (is_inside acc (m_start m)) then
              let formula := formula_of m in
              if truthy formula && negb (contains dollar formula)
              then acc ++ [Span (m_start m) (m_end m) inline formula]
              else acc
            else acc) ms acc).
Proof.
  induction ms as [|m ms IH]; intros acc H; [exact H|].
  cbn [fold_left]. apply IH. cbv zeta.
  destruct (is_inside acc (m_start m)) eqn:E; cbn [negb]; [exact H|].
  destruct (truthy (formula_of m) && negb (contains dollar (formula_of m)));
    [|exact H].
  apply pairs_snoc; [exact H|]. apply is_inside_one, E.
Qed.

Lemma block_dollar_fold_outside (ms : list rmatch) :
  ForallOrdPairs (fun a b => m_end a <= m_start b) ms ->
  forall acc,
    ForallOrdPairs starts_outside acc ->
    Forall (fun a => Forall (fun m => s_end a <= m_start m) ms) acc ->
    ForallOrdPairs starts_outside
      (fold_left
         (fun acc m =>
            let formula := formula_of m in
            if truthy formula
            then acc ++ [Span (m_start m) (m_end m) block formula]
            else acc) ms acc).
Proof.
  induction 1 as [|m ms Hm Hms IH]; intros acc H Hacc; [exact H|].
  cbn [fold_left]. cbv zeta.
  assert (Hacc' : Forall (fun a => Forall (fun m0 => s_end a <= m_start m0) ms)
                         acc).
  { eapply Forall_impl; [|exact Hacc]. intros a Ha. inversion Ha; assumption. }
  destruct (truthy (formula_of m)); [|apply IH; assumption].
  apply IH.
  - apply pairs_snoc; [exact H|].
    eapply Forall_impl; [|exact Hacc]. intros a Ha. inversion Ha; subst.
    unfold starts_outside, is_inside. cbn [existsb s_start].
    rewrite orb_false_r. apply andb_false_iff. right.
    apply Nat.ltb_ge. assumption.
  - apply Forall_app. split; [exact Hacc'|].
    constructor; [exact Hm | constructor].
Qed.

(** X18.  In the list the four scans collect, no candidate starts inside a
    candidate collected before it: a [\[...\]], [$...$] or [\(...\)] that
    begins within a formula already found is not collected. *)
Theorem no_candidate_starts_inside_an_earlier_one (input : str) :
  ForallOrdPairs starts_outside (collect (normalize input)).
Proof.
  unfold collect, collect_guarded, collect_inline_dollar,
    collect_block_dollar.
  apply guarded_fold_outside, inline_dollar_fold_outside,
    guarded_fold_outside.
  apply block_dollar_fold_outside; [|constructor|constructor].
  apply finditer_from_ordered.
Qed.


(** ** Segments come from the text, in its order *)

Lemma subseq_nil_any {A : Type} (l : list A) : subseq [] l.
Proof. induction l; [constructor | apply subseq_skip; assumption]. Qed.

Lemma subseq_middle {A : Type} (u l v : list A) : subseq l (u ++ l ++ v).
Proof.
  apply subseq_after. rewrite <- (app_nil_r l) at 1.
  apply subseq_app; [apply subseq_same | apply subseq_nil_any].
Qed.

Lemma lstrip_suffix (s : str) : exists u, s = u ++ lstrip s.
Proof.
  induction s as [|c s [u IH]]; [exists []; reflexivity|].
  cbn [lstrip]. destruct (isspace c); [|exists []; reflexivity].
  exists (c :: u). cbn [app]. rewrite <- IH. reflexivity.
Qed.

Lemma strip_middle (s : str) : exists u v, s = u ++ strip s ++ v.
Proof.
  unfold strip, rstrip. destruct (lstrip_suffix s) as [u Hu].
  destruct (lstrip_suffix (rev (lstrip s))) as [w Hw].
  exists u, (rev w). rewrite <- rev_app_distr, <- Hw, rev_involutive.
  exact Hu.
Qed.

Lemma strip_subseq (s : str) : subseq (strip s) s.
Proof.
  destruct (strip_middle s) as (u & v & E). rewrite E at 2.
  apply subseq_middle.
Qed.

Lemma firstn_split {A : Type} (a b : nat) (l : list A) :
  a <= b -> firstn b l = firstn a l ++ firstn (b - a) (skipn a l).
Proof.
  revert b l. induction a as [|a IH]; intros b l H.
  - rewrite Nat.sub_0_r. reflexivity.
  - destruct b as [|b]; [lia|].
    destruct l as [|x l]; [rewrite skipn_nil, !firstn_nil; reflexivity|].
    cbn [firstn skipn Nat.sub app]. rewrite (IH b l) by lia. reflexivity.
Qed.

Lemma slice_split (txt : str) (a b c : nat) :
  a <= b -> b <= c -> slice txt a c = slice txt a b ++ slice txt b c.
Proof.
  intros Hab Hbc. unfold slice.
  rewrite (@firstn_split _ (b - a) (c - a)) by lia.
  rewrite skipn_skipn.
  replace (c - a - (b - a)) with (c - b) by lia.
  replace (b - a + a) with b by lia. reflexivity.
Qed.

Lemma firstn_slice (txt : str) (a b : nat) :
  a <= b -> firstn b txt = firstn a txt ++ slice txt a b.
Proof. intros H. unfold slice. apply firstn_split, H. Qed.

Lemma walk_step_parts (txt : str) (ps : list part) (last_end : nat)
      (m : span) :
  walk_step txt (ps, last_end) m
  = ((ps ++ (if (last_end <? s_start m)
                && has_real_content (slice txt last_end (s_start m))
             then [(text, slice txt last_end (s_start m))] else []))
       ++ (if has_real_content (s_content m)
           then [(match s_kind m with
                  | block => block_latex
                  | inline => inline_latex
                  end, s_content m)]
           else []),
     s_end m).
Proof.
  unfold walk_step.
  destruct (last_end <? s_start m),
    (has_real_content (slice txt last_end (s_start m))),
    (s_kind m), (has_real_content (s_content m));
    cbn [andb]; rewrite ?app_nil_r; reflexivity.
Qed.

Lemma walk_subseq (txt : str) (ms : list span) :
  ForallOrdPairs before ms ->
  Forall (span_in txt) ms ->
  forall ps last_end,
    Forall (fun m => last_end <= s_start m) ms ->
    subseq (flat_map snd ps) (firstn last_end txt) ->
    subseq (flat_map snd (fst (fold_left (walk_step txt) ms (ps, last_end))))
           (firstn (snd (fold_left (walk_step txt) ms (ps, last_end))) txt).
Proof.
  induction 1 as [|m ms Hm Hms IH]; intros Hin ps last_end Hle Hps;
    [exact Hps|].
  inversion Hin as [|? ? Hsp Hin']; subst.
  inversion Hle as [|? ? Hl _]; subst.
  destruct (span_in_width Hsp) as (d & _ & H1 & H2 & H3 & _ & _).
  cbn [fold_left]. rewrite walk_step_parts.
  apply IH; [exact Hin' | exact Hm |].
  rewrite !flat_map_app.
  rewrite (@firstn_slice txt (s_start m) (s_end m)) by lia.
  rewrite (@firstn_slice txt last_end (s_start m) Hl).
  apply subseq_app; [apply subseq_app; [exact Hps|]|].
  - destruct ((last_end <? s_start m)
              && has_real_content (slice txt last_end (s_start m))).
    + cbn [flat_map snd]. rewrite app_nil_r. apply subseq_same.
    + apply subseq_nil_any.
  - destruct (has_real_content (s_content m)); [|apply subseq_nil_any].
    cbn [flat_map snd]. rewrite app_nil_r, H3.
    eapply subseq_trans; [apply strip_subseq|].
    rewrite (@slice_split txt (s_start m) (s_start m + d) (s_end m)) by lia.
    rewrite (@slice_split txt (s_start m + d) (s_end m - d) (s_end m))
      by lia.
    apply subseq_middle.
Qed.

(** X19.  The contents of the segments, one after the other, are a
    subsequence of the normalized text, and so of the input: every segment
    is taken from the text, in the order of the text, and nothing is taken
    twice. *)
Theorem segments_come_from_the_text (input : str) :
  let txt := normalize input in
  subseq (flat_map snd (segments txt (resolve txt))) txt
  /\ subseq (flat_map snd (segments txt (resolve txt))) input.
Proof.
  intros txt.
  assert (H : subseq (flat_map snd (segments txt (resolve txt))) txt).
  { unfold segments.
    assert (W : subseq
                  (flat_map snd
                     (fst (fold_left (walk_step txt) (resolve txt) ([], 0))))
                  (firstn
                     (snd (fold_left (walk_step txt) (resolve txt) ([], 0)))
                     txt)).
    { apply (@walk_subseq txt (resolve txt) (resolve_chain txt)
               (resolve_spans_in txt) [] 0); [|constructor].
      apply Forall_forall. intros m _. lia. }
    destruct (fold_left (walk_step txt) (resolve txt) ([], 0))
      as [ps last_end].
    cbn [fst snd] in W.
    assert (Hps : subseq (flat_map snd ps) (firstn last_end txt))
      by exact W.
    assert (Hno : subseq (flat_map snd ps) txt).
    { rewrite <- (firstn_skipn last_end txt).
      rewrite <- (app_nil_r (flat_map snd ps)).
      apply subseq_app; [exact Hps | apply subseq_nil_any]. }
    destruct (last_end <? length txt); [|exact Hno].
    destruct (has_real_content (skipn last_end txt)); [|exact Hno].
    rewrite flat_map_app. cbn [flat_map snd]. rewrite app_nil_r.
    rewrite <- (firstn_skipn last_end txt) at 2.
    apply subseq_app; [exact Hps | apply subseq_same]. }
  split; [exact H|].
  eapply subseq_trans; [exact H|].
  unfold txt. rewrite <- (join_split input) at 2. unfold normalize.
  apply (join_map_rel (fun a b => subseq a b)).
  - intros a b c d Hab Hcd. apply subseq_app; [exact Hab|].
    apply subseq_take. exact Hcd.
  - constructor.
  - intros l. rewrite fix_escapes_reduce. apply (reduce_runs_deletes l 0).
Qed.

(** * Rendering a second time *)

Lemma run_seq (fl : flags) (r1 r2 : regex) (st : state) :
  run fl (r1 >> r2) st = flat_map (run fl r2) (run fl r1 st).
Proof. reflexivity. Qed.

Lemma run_lit_hit (fl : flags) (c : char) (st : state) (t : str) :
  ignorecase fl = false ->
  rest st = c :: t ->
  run fl (lit c) st = [{| seen := c :: seen st; rest := t; caps := caps st |}].
Proof.
  intros Hfl E. cbn [run]. unfold eat. rewrite E. cbn [atom_match].
  unfold char_eq. rewrite Hfl, N.eqb_refl. reflexivity.
Qed.

Lemma run_lit_miss (fl : flags) (c : char) (st : state) :
  ignorecase fl = false ->
  match rest st with x :: _ => x <> c | [] => True end ->
  run fl (lit c) st = [].
Proof.
  intros Hfl E. cbn [run]. unfold eat. destruct (rest st) as [|x t];
    [reflexivity|].
  cbn [atom_match]. unfold char_eq. rewrite Hfl.
  assert ((c =? x)%N = false) as ->
    by (apply N.eqb_neq; intros H; apply E; symmetry; exact H).
  reflexivity.
Qed.


Lemma run_block_dollar_single (st : state) (t : str) :
  rest st = dollar :: t ->
  match t with x :: _ => x <> dollar | [] => True end ->
  run DOTALL pat_block_dollar st = [].
Proof.
  intros E Ht. unfold pat_block_dollar. rewrite run_seq.
  rewrite (@run_lit_hit DOTALL dollar st t eq_refl E).
  cbn [flat_map]. rewrite run_seq, run_lit_miss; [reflexivity | reflexivity |].
  exact Ht.
Qed.














(** ** Where the other scans find nothing *)


























(** ** The walk, the merges and the emit loop on a reserialized text *)























